(** * vercel-deno: cache relocation and the runtime event loop

    A shallow embedding of the parts of the builder that carry its logic:

    - [moveCacheFiles], which rewrites the [.graph] and [.buildinfo] files
      of the Deno cache from the build root to the root of the deployed
      function and then moves the files, with [getFilesWithExtension],
      which finds the files, and [deleteEmptyDirs], which prunes the
      directories the move leaves empty;
    - the update of the functions manifest at the end of
      [buildEntrypoint];
    - [waitForPortFile], the polling loop of the development server;
    - [processEvents], [nextInvocation], [invokeResponse], [invokeError]
      and [toLambdaErr] of [src/bootstrap], the loop that serves the
      invocations of the Lambda runtime API.

    JavaScript strings are sequences of UTF-16 code units; they are modelled
    by [string], one character standing for one code unit.  Only
    [startsWith], [endsWith], [substring], [split] at a line feed,
    [length] and concatenation are used by the code, and all act on the
    sequence of units. *)

From stdpp Require Import base option list strings gmap.
From Stdlib Require Import Ascii ZArith Lia Permutation.

Open Scope string_scope.
Open Scope list_scope.

(** ** JavaScript values, strings, objects and sets *)

Module JS.

(** The values [JSON.parse] produces, plus [undefined]. *)
#[local] Unset Elimination Schemes.
Inductive jsval : Type :=
| JUndefined
| JNull
| JBool (b : bool)
| JNum (n : Z)
| JStr (s : string)
| JArr (l : list jsval)
| JObj (l : list (string * jsval)).
#[local] Set Elimination Schemes.

(** [s.startsWith(searchString)] *)
Definition startsWith (s searchString : string) : bool :=
  String.prefix searchString s.

(** [s.substring(start)]: a start beyond the end is clamped to the end. *)
Fixpoint substring_from (start : nat) (s : string) : string :=
  match start, s with
  | 0, _ => s
  | S n, String _ s' => substring_from n s'
  | S _, EmptyString => EmptyString
  end.

(** An object used as a dictionary: its own properties in enumeration
    order.  Keys are unique.  The keys the relocation inserts start with
    [file://], so they are never array indices and a new one is enumerated
    last. *)
Abbreviation obj V := (list (string * V)).

Section Obj.
Context {V : Type}.

(** [o[k]], [None] standing for an absent property *)
Fixpoint obj_get (k : string) (o : obj V) : option V :=
  match o with
  | [] => None
  | (k', v) :: o' => if decide (k = k') then Some v else obj_get k o'
  end.

(** [o[k] = v]: an existing property keeps its place, a new one goes last *)
Fixpoint obj_set (k : string) (v : V) (o : obj V) : obj V :=
  match o with
  | [] => [(k, v)]
  | (k', v') :: o' =>
      if decide (k = k') then (k, v) :: o' else (k', v') :: obj_set k v o'
  end.

(** [delete o[k]] *)
Fixpoint obj_delete (k : string) (o : obj V) : obj V :=
  match o with
  | [] => []
  | (k', v') :: o' =>
      if decide (k = k') then obj_delete k o' else (k', v') :: obj_delete k o'
  end.

(** [Object.keys(o)] *)
Definition obj_keys (o : obj V) : list string := o.*1.
End Obj.

(** A [Set<string>]: its elements in insertion order, without repetition. *)
Abbreviation jsset := (list string).

(** [s.add(x)] *)
Definition set_add (x : string) (s : jsset) : jsset :=
  if decide (x ∈ s) then s else s ++ [x].

End JS.

Import JS.

(** ** [moveCacheFiles]: rewriting the cache documents *)

Module Relocate.

(** The documents, as [./types] declares them; an array entry is any
    value [JSON.parse] can produce, since the loops test
    [typeof ... === 'string']. *)
Record Graph : Type := mkGraph {
  deps : list jsval;
  version_hash : string
}.

Record Program : Type := mkProgram {
  fileNames : option (list jsval);
  fileInfos : obj jsval;
  referencedMap : obj (list jsval);
  exportedModulesMap : obj (list jsval);
  semanticDiagnosticsPerFile : option (list jsval)
}.

Record BuildInfo : Type := mkBuildInfo {
  program : Program;
  version : string
}.

Section Roots.
(** [moveCacheFiles(genFileDir, oldPath, newPath, sourceFiles?)] *)
Variables oldPath newPath : string.

Definition workPathUri : string := "file://" +:+ oldPath.

(** [dep.substring(workPathUri.length + 1)] *)
Definition relative_of (dep : string) : string :=
  substring_from (String.length workPathUri + 1) dep.

(** [`file://${newPath}/${relative}`] *)
Definition updated_of (relative : string) : string :=
  "file://" +:+ newPath +:+ "/" +:+ relative.

(** What the function carries from one loop to the next: the optional
    [sourceFiles] set and the [needsWrite] flag of the current file. *)
Record Acc : Type := mkAcc {
  sourceFiles : option jsset;
  needsWrite : bool
}.

(** [sourceFiles?.add(relative); needsWrite = true;] *)
Definition record_rewrite (relative : string) (a : Acc) : Acc :=
  {| sourceFiles := set_add relative <$> sourceFiles a; needsWrite := true |}.

(** The body of the loops over an array ([deps], the lists of the two
    maps, [fileNames], [semanticDiagnosticsPerFile]); the source repeats
    it five times with only the array changing. *)
Definition patch_at (i : nat) (st : list jsval * Acc) : list jsval * Acc :=
  let '(arr, a) := st in
  match arr !! i with
  | Some (JStr dep) =>
      if startsWith dep workPathUri then
        let relative := relative_of dep in
        let updated := updated_of relative in
        (<[i := JStr updated]> arr, record_rewrite relative a)
      else st
  | _ => st
  end.

(** [for (let i = ...; i < arr.length; i++) { ... }], the fuel bounding
    the number of iterations *)
Fixpoint patch_loop (fuel i : nat) (st : list jsval * Acc) : list jsval * Acc :=
  match fuel with
  | 0 => st
  | S fuel' =>
      if decide (i < length st.1) then patch_loop fuel' (S i) (patch_at i st)
      else st
  end.

(** [for (let i = 0; i < arr.length; i++) { ... }]: the array keeps its
    length, so [length arr] iterations exhaust it *)
Definition patch_array (arr : list jsval) (a : Acc) : list jsval * Acc :=
  patch_loop (length arr) 0 (arr, a).

(** The first loop of [moveCacheFiles], for one [.graph] file: the
    patched document, the document written back if any, and the set. *)
Record GraphResult : Type := mkGraphResult {
  gr_graph : Graph;
  gr_written : option Graph;
  gr_sourceFiles : option jsset
}.

Definition patch_graph (graph : Graph) (sf : option jsset) : GraphResult :=
  let '(deps', a) := patch_array (deps graph) (mkAcc sf false) in
  let graph' := {| deps := deps'; version_hash := version_hash graph |} in
  {| gr_graph := graph';
     gr_written := if needsWrite a then Some graph' else None;
     gr_sourceFiles := sourceFiles a |}.

(** The body of the loop over [Object.keys(fileInfos)].  The value
    stored under the new key is read from the object as it is at that
    moment. *)
Definition rekey_fileInfo (st : obj jsval * Acc) (filename : string)
  : obj jsval * Acc :=
  let '(fileInfos, a) := st in
  if startsWith filename workPathUri then
    let relative := relative_of filename in
    let updated := updated_of relative in
    let v := default JUndefined (obj_get filename fileInfos) in
    (obj_delete filename (obj_set updated v fileInfos),
     record_rewrite relative a)
  else st.

(** [for (const filename of Object.keys(fileInfos)) { ... }]: the keys
    are listed once, before the object is changed *)
Definition patch_fileInfos (fileInfos : obj jsval) (a : Acc)
  : obj jsval * Acc :=
  foldl rekey_fileInfo (fileInfos, a) (obj_keys fileInfos).

(** The arrays of [referencedMap] and [exportedModulesMap] are objects
    of their own: the map holds references to them, and
    [Object.entries] lists the references, not copies.  [ms_heap] is the
    store of the arrays of one map, a reference being an index in it. *)
Record MapState : Type := mkMapState {
  ms_map : obj nat;
  ms_heap : list (list jsval);
  ms_acc : Acc
}.

(** The body of the loop over [Object.entries(map)]: the inner loop on
    [refs], then the key. *)
Definition patch_entry (st : MapState) (entry : string * nat) : MapState :=
  let '(filename, refs) := entry in
  let '(arr, a) := patch_array (default [] (ms_heap st !! refs)) (ms_acc st) in
  let heap := <[refs := arr]> (ms_heap st) in
  if startsWith filename workPathUri then
    let relative := relative_of filename in
    let updated := updated_of relative in
    {| ms_map := obj_delete filename (obj_set updated refs (ms_map st));
       ms_heap := heap;
       ms_acc := record_rewrite relative a |}
  else {| ms_map := ms_map st; ms_heap := heap; ms_acc := a |}.

(** [JSON.parse] gives every property of the map a fresh array. *)
Definition alloc (m : obj (list jsval)) : obj nat * list (list jsval) :=
  (imap (fun i kv => (kv.1, i)) m, m.*2).

(** What [JSON.stringify] reads back through the references. *)
Definition deref (heap : list (list jsval)) (m : obj nat) : obj (list jsval) :=
  (fun kr => (kr.1, default [] (heap !! kr.2))) <$> m.

Definition run_entries (m : obj (list jsval)) (a : Acc) : MapState :=
  let '(m0, heap0) := alloc m in
  foldl patch_entry {| ms_map := m0; ms_heap := heap0; ms_acc := a |} m0.

(** [for (const [filename, refs] of Object.entries(map)) { ... }] *)
Definition patch_refMap (m : obj (list jsval)) (a : Acc)
  : obj (list jsval) * Acc :=
  let st := run_entries m a in
  (deref (ms_heap st) (ms_map st), ms_acc st).

(** [fileNames = []] and [semanticDiagnosticsPerFile = []]: an absent
    array is replaced by an empty one that is not part of the document. *)
Definition patch_optional (arr : option (list jsval)) (a : Acc)
  : option (list jsval) * Acc :=
  match arr with
  | Some l => let '(l', a') := patch_array l a in (Some l', a')
  | None => let '(_, a') := patch_array [] a in (None, a')
  end.

(** The second loop of [moveCacheFiles], for one [.buildinfo] file. *)
Record BuildInfoResult : Type := mkBuildInfoResult {
  br_buildInfo : BuildInfo;
  br_written : option BuildInfo;
  br_sourceFiles : option jsset
}.

Definition patch_buildInfo (buildInfo : BuildInfo) (sf : option jsset)
  : BuildInfoResult :=
  let p := program buildInfo in
  let a := mkAcc sf false in
  let '(fileInfos', a) := patch_fileInfos (fileInfos p) a in
  let '(referencedMap', a) := patch_refMap (referencedMap p) a in
  let '(exportedModulesMap', a) := patch_refMap (exportedModulesMap p) a in
  let '(fileNames', a) := patch_optional (fileNames p) a in
  let '(semanticDiagnosticsPerFile', a) :=
    patch_optional (semanticDiagnosticsPerFile p) a in
  let buildInfo' :=
    {| program :=
         {| fileNames := fileNames';
            fileInfos := fileInfos';
            referencedMap := referencedMap';
            exportedModulesMap := exportedModulesMap';
            semanticDiagnosticsPerFile := semanticDiagnosticsPerFile' |};
       version := version buildInfo |} in
  {| br_buildInfo := buildInfo';
     br_written := if needsWrite a then Some buildInfo' else None;
     br_sourceFiles := sourceFiles a |}.

(** The two loops over files.  [graphs] and [buildInfos] are the [.graph]
    and the [.buildinfo] files in the order [getFilesWithExtension] yields
    them, each with the document [JSON.parse] reads from it; the result is
    the list of the [writeFile] calls, in order, and the set at the end.
    The set is the one thing the files share: [needsWrite] starts false
    for each file. *)
Inductive document : Type :=
| GraphDoc (graph : Graph)
| BuildInfoDoc (buildInfo : BuildInfo).

Definition visit_graph (st : list (string * document) * option jsset)
    (f : string * Graph) : list (string * document) * option jsset :=
  let '(writes, sf) := st in
  let r := patch_graph f.2 sf in
  (writes ++ match gr_written r with
             | Some graph => [(f.1, GraphDoc graph)]
             | None => []
             end,
   gr_sourceFiles r).

Definition visit_buildInfo (st : list (string * document) * option jsset)
    (f : string * BuildInfo) : list (string * document) * option jsset :=
  let '(writes, sf) := st in
  let r := patch_buildInfo f.2 sf in
  (writes ++ match br_written r with
             | Some buildInfo => [(f.1, BuildInfoDoc buildInfo)]
             | None => []
             end,
   br_sourceFiles r).

Definition patch_files (graphs : list (string * Graph))
    (buildInfos : list (string * BuildInfo)) (sf : option jsset)
  : list (string * document) * option jsset :=
  foldl visit_buildInfo (foldl visit_graph ([], sf) graphs) buildInfos.

(** *** The rewriting, entry by entry

    What the prose of the design says one pass does to a single array
    entry and to the set; the loops above are compared with these. *)

Definition relocate_string (s : string) : string :=
  if startsWith s workPathUri then updated_of (relative_of s) else s.

Definition relocate_entry (e : jsval) : jsval :=
  match e with
  | JStr s => JStr (relocate_string s)
  | _ => e
  end.

Definition relocate_array (arr : list jsval) : list jsval :=
  relocate_entry <$> arr.

(** The strings at the places a pass looks at: the string entries of an
    array; for a map of arrays, entry after entry, those of the array and
    then the key; for a build-info document, the keys of [fileInfos],
    the two maps, [fileNames] and [semanticDiagnosticsPerFile], in the
    order the loops visit them. *)
Definition strings_of (arr : list jsval) : list string :=
  omap (fun e => match e with JStr s => Some s | _ => None end) arr.

Definition strings_of_map (m : obj (list jsval)) : list string :=
  flat_map (fun kv => strings_of kv.2 ++ [kv.1]) m.

Definition strings_of_buildInfo (b : BuildInfo) : list string :=
  let p := program b in
  obj_keys (fileInfos p)
  ++ strings_of_map (referencedMap p)
  ++ strings_of_map (exportedModulesMap p)
  ++ strings_of (default [] (fileNames p))
  ++ strings_of (default [] (semanticDiagnosticsPerFile p)).

(** The relative paths of the strings that begin with the prefix. *)
Definition rels_of (ss : list string) : list string :=
  flat_map (fun s => if startsWith s workPathUri then [relative_of s] else []) ss.

Definition discovered (arr : list jsval) : list string :=
  rels_of (strings_of arr).

Definition refers_to_old (ss : list string) : bool :=
  existsb (fun s => startsWith s workPathUri) ss.

(** What one turn of a loop over keys does to the object, [v] being the
    value it stores under the new key. *)
Definition rekey {V : Type} (m : obj V) (k : string) (v : V) : obj V :=
  if startsWith k workPathUri
  then obj_delete k (obj_set (updated_of (relative_of k)) v m)
  else m.

(** The strings of all the files of a run, in the order of the visit. *)
Definition strings_of_files (graphs : list (string * Graph))
    (buildInfos : list (string * BuildInfo)) : list string :=
  flat_map (fun f => strings_of (deps f.2)) graphs
  ++ flat_map (fun f => strings_of_buildInfo f.2) buildInfos.

Definition add_all (rels : list string) (s : jsset) : jsset :=
  foldl (fun s r => set_add r s) s rels.

Definition record_all (rels : list string) (a : Acc) : Acc :=
  foldl (fun a r => record_rewrite r a) a rels.


(** [k] does not begin with the prefix, or its rewriting no longer does. *)
Definition leaves_old_root (k : string) : bool :=
  negb (startsWith k workPathUri)
  || negb (startsWith (updated_of (relative_of k)) workPathUri).

Definition relocate_map (m : obj (list jsval)) : obj (list jsval) :=
  (fun kl => (relocate_string kl.1, relocate_array kl.2)) <$> m.

Definition relocate_keys {V : Type} (m : obj V) : obj V :=
  (fun kv => (relocate_string kv.1, kv.2)) <$> m.

(** No key of [ks] that begins with the prefix is rewritten to a key
    of [ks]. *)
Definition no_clash (ks : list string) : bool :=
  forallb (fun k => negb (startsWith k workPathUri)
                    || negb (bool_decide (relocate_string k ∈ ks))) ks.

End Roots.

End Relocate.

Import Relocate.

(** *** Going to a new root and back

    [round_trips a b s]: the string [s] either continues the URI of the
    root [a] with a [/], or begins with the URI of neither root. *)
Definition round_trips (a b s : string) : bool :=
  if startsWith s (workPathUri a)
  then bool_decide (s = workPathUri a +:+ "/" +:+ relative_of a s)
  else negb (startsWith s (workPathUri b)).

(** The keys of each map of the document are distinct, as those of an
    object are. *)
Definition distinct_keys (b : BuildInfo) : Prop :=
  NoDup (obj_keys (fileInfos (program b))) /\
  NoDup (obj_keys (referencedMap (program b))) /\
  NoDup (obj_keys (exportedModulesMap (program b))).

(** Every string of the document goes to [b] and back, and no rewritten
    key is already a key of its map. *)
Definition round_trip_safe (a b : string) (doc : BuildInfo) : bool :=
  forallb (round_trips a b) (strings_of_buildInfo doc)
  && no_clash a b (obj_keys (fileInfos (program doc)))
  && no_clash a b (obj_keys (referencedMap (program doc)))
  && no_clash a b (obj_keys (exportedModulesMap (program doc))).

(** ** The file system calls of [deleteEmptyDirs] and [waitForPortFile] *)

Module Fs.

(** The [code] of the error a rejected [fs.promises] call carries. *)
Inductive errno : Type := ENOENT | ENOTDIR | ENOTEMPTY | EBUSY | EACCES.

#[global] Instance errno_eq_dec : EqDecision errno.
Proof. solve_decision. Defined.

(** An awaited call either yields a value or throws. *)
Inductive result (A : Type) : Type :=
| Ok (a : A)
| Throw (e : errno).
Arguments Ok {A} a.
Arguments Throw {A} e.

Inductive node : Type := File | Dir.

(** An absolute path, as the list of its components below the root. *)
Abbreviation path := (list string).

(** The tree, as the finite map from the paths that exist to what they are. *)
Abbreviation tree := (gmap (list string) node).

(** [dirname(dir)]; the root is its own parent. *)
Definition dirname (dir : path) : path := take (length dir - 1) dir.

(** The name of [p] inside [dir], when [p] is a direct child of [dir]. *)
Definition child_name (dir p : path) : option string :=
  match reverse p with
  | name :: parent => if decide (reverse parent = dir) then Some name else None
  | [] => None
  end.

Definition children (dir : path) (t : tree) : list string :=
  omap (child_name dir) (elements (dom t)).

(** [readdir(dir)] *)
Definition readdir (dir : path) (t : tree) : result (list string) :=
  match t !! dir with
  | None => Throw ENOENT
  | Some File => Throw ENOTDIR
  | Some Dir => Ok (children dir t)
  end.

(** [rmdir(dir)]; the root cannot be removed. *)
Definition rmdir (dir : path) (t : tree) : result tree :=
  match t !! dir with
  | None => Throw ENOENT
  | Some File => Throw ENOTDIR
  | Some Dir =>
      if decide (dir = []) then Throw EBUSY
      else if decide (children dir t = []) then Ok (delete dir t)
      else Throw ENOTEMPTY
  end.

End Fs.

Import Fs.

(** ** [deleteEmptyDirs] *)

Module Cleanup.

(** [deleteEmptyDirs(dir)], the fuel bounding the depth of the recursion;
    [None] is fuel running out. *)
Fixpoint deleteEmptyDirs_fuel (fuel : nat) (dir : path) (t : tree)
  : option (result tree) :=
  match fuel with
  | 0 => None
  | S fuel' =>
      match readdir dir t with
      | Throw e => Some (Throw e)
      | Ok files =>
          if decide (length files ≠ 0) then Some (Ok t)
          else
            match rmdir dir t with
            | Throw e => Some (Throw e)
            | Ok t' => deleteEmptyDirs_fuel fuel' (dirname dir) t'
            end
      end
  end.

(** Every recursive call follows a successful [rmdir] of a directory that
    is not the root, so one call per component of [dir] and one more for
    the root are enough. *)
Definition deleteEmptyDirs (dir : path) (t : tree) : option (result tree) :=
  deleteEmptyDirs_fuel (S (length dir)) dir t.

End Cleanup.

(** ** [waitForPortFile] *)

Module PortFile.

(** [Number(text)] *)
Inductive number : Type := Number (text : string).

Record PortInfo : Type := mkPortInfo { port : number }.

(** What one turn of the polling loop meets: the state of the abort
    signal when the loop tests it, the outcome of [readFile] and, when the
    file was read, the outcome of [unlink]. *)
Record Poll : Type := mkPoll {
  aborted : bool;
  read : result string;
  unlinked : result unit
}.

Inductive outcome : Type :=
| Returned (v : option PortInfo)   (* [{ port }], or [undefined] once aborted *)
| Thrown (e : errno)
| Polling.                         (* still in the loop *)

(** [waitForPortFile(opts)] against the turns the environment grants it;
    the first component counts the [console.error] calls. *)
Fixpoint waitForPortFile (polls : list Poll) : nat * outcome :=
  match polls with
  | [] => (0, Polling)
  | p :: rest =>
      if aborted p then (0, Returned None)
      else
        match read p with
        | Ok text =>
            let logged := match unlinked p with Throw _ => 1 | Ok _ => 0 end in
            (logged, Returned (Some {| port := Number text |}))
        | Throw code =>
            if decide (code ≠ ENOENT) then (0, Thrown code)
            else waitForPortFile rest
        end
  end.

End PortFile.

(** ** [src/bootstrap]: the runtime loop *)

Module Bootstrap.

(** The default export of the handler module, as far as the loop looks at
    it: [typeof handler === 'function'], and [!handler] otherwise. *)
Inductive export : Type := Callable | TruthyValue | FalsyValue.

(** [let handler: Handler | null] *)
Inductive handler_ref : Type := HNull | HSet (e : export).

(** [!handler] *)
Definition not_handler (h : handler_ref) : bool :=
  match h with
  | HNull | HSet FalsyValue => true
  | HSet _ => false
  end.

Inductive error : Type := Error (message : string).

Record VercelResponsePayload : Type := mkPayload {
  statusCode : Z;
  body : string
}.

(** What the loop meets during one invocation: the answer to the
    long-poll, what [import] yields if it is evaluated, whether the request
    can be rebuilt from the event, what calling the handler and draining
    its response yield, and the status the POST is answered with. *)
Record Invocation : Type := mkInvocation {
  next_status : Z;
  next_traceId : option string;
  next_awsRequestId : option string;
  next_event : bool;                 (* [JSON.parse(res.body)] succeeds *)
  import_default : option export;    (* [None]: the import rejects *)
  request_built : bool;              (* lines 67-74 do not throw *)
  handled : error + VercelResponsePayload;
  post_status : Z
}.

Inductive action : Type :=
| FetchNext
| SetTraceId (traceId : string)
| DeleteTraceId
| ImportHandler
| CallHandler (awsRequestId : string)
| PostResponse (awsRequestId : string) (result : VercelResponsePayload)
| PostError (awsRequestId : string) (err : error)
| ConsoleError (err : error)
| Exit (code : Z).

(** Computations of the loop: they read and assign the variable
    [handler], leave a trace of actions and may throw. *)
Definition M (A : Type) : Type :=
  handler_ref -> list action * handler_ref * (error + A).

#[global] Instance M_ret : MRet M := fun A a h => ([], h, inr a).

#[global] Instance M_bind : MBind M := fun A B f m h =>
  match m h with
  | (tr, h', inl e) => (tr, h', inl e)
  | (tr, h', inr a) => let '(tr', h'', r) := f a h' in (tr ++ tr', h'', r)
  end.

Definition throw {A} (e : error) : M A := fun h => ([], h, inl e).
Definition emit (x : action) : M unit := fun h => ([x], h, inr tt).
Definition get_handler : M handler_ref := fun h => ([], h, inr h).
Definition set_handler (v : handler_ref) : M unit := fun _ => ([], v, inr tt).

(** [try { m } catch (e) { k e }] *)
Definition try_catch {A} (m : M A) (k : error -> M A) : M A := fun h =>
  match m h with
  | (tr, h', inl e) => let '(tr', h'', r) := k e h' in (tr ++ tr', h'', r)
  | (tr, h', inr a) => (tr, h', inr a)
  end.

(** [nextInvocation()]; the event itself is not looked at here. *)
Definition nextInvocation (inv : Invocation) : M string :=
  emit FetchNext;;
  if decide (next_status inv ≠ 200%Z) then
    throw (Error "Unexpected /invocation/next response")
  else
    match next_traceId inv with
    | Some traceId => emit (SetTraceId traceId)
    | None => emit DeleteTraceId
    end;;
    match next_awsRequestId inv with
    | None =>
        throw (Error "Did not receive lambda-runtime-aws-request-id header")
    | Some awsRequestId =>
        if next_event inv then mret awsRequestId
        else throw (Error "JSON.parse")
    end.

(** [invokeResponse(result, awsRequestId)] *)
Definition invokeResponse (inv : Invocation) (result : VercelResponsePayload)
    (awsRequestId : string) : M unit :=
  emit (PostResponse awsRequestId result);;
  if decide (post_status inv ≠ 202%Z) then
    throw (Error "Unexpected /invocation/response response")
  else mret tt.

(** [invokeError(err, awsRequestId)], through [postError] *)
Definition invokeError (inv : Invocation) (err : error) (awsRequestId : string)
  : M unit :=
  emit (PostError awsRequestId err);;
  if decide (post_status inv ≠ 202%Z) then
    throw (Error "Unexpected error response")
  else mret tt.

(** The [try] block of the loop. *)
Definition try_block (inv : Invocation) (awsRequestId : string)
  : M VercelResponsePayload :=
  handler ← get_handler;
  (if not_handler handler then
     emit ImportHandler;;
     match import_default inv with
     | None => throw (Error "import")
     | Some e =>
         set_handler (HSet e);;
         match e with
         | Callable => mret tt
         | _ => throw (Error "Failed to load handler function")
         end
     end
   else mret tt);;
  (if request_built inv then mret tt else throw (Error "request"));;
  handler ← get_handler;
  match handler with
  | HSet Callable =>
      emit (CallHandler awsRequestId);;
      match handled inv with
      | inl e => throw e
      | inr result => mret result
      end
  | _ => throw (Error "handler is not a function")
  end.

(** One turn of [while (true)]; [None] out of the [try] statement stands
    for [continue]. *)
Definition turn (inv : Invocation) : M unit :=
  awsRequestId ← nextInvocation inv;
  result ← try_catch
    (result ← try_block inv awsRequestId; mret (Some result))
    (fun e =>
       emit (ConsoleError e);;
       invokeError inv e awsRequestId;;
       mret None);
  match result with
  | Some result => invokeResponse inv result awsRequestId
  | None => mret tt
  end.

(** The loop of [processEvents()], against the invocations delivered to
    it.  It never returns: once the deliveries are used up the long-poll
    is pending, which is the result [inr tt]; [inl e] is the promise
    rejecting with [e]. *)
Fixpoint loop (script : list Invocation) : M unit :=
  match script with
  | [] => emit FetchNext
  | inv :: rest => turn inv;; loop rest
  end.

(** The turns of the loop alone, without the long-poll that follows them. *)
Fixpoint turns (script : list Invocation) : M unit :=
  match script with
  | [] => mret tt
  | inv :: rest => turn inv;; turns rest
  end.

(** [processEvents()]: [let handler: Handler | null = null], then the loop. *)
Definition processEvents (script : list Invocation)
  : list action * handler_ref * (error + unit) :=
  loop script HNull.

(** The last statement of the file, when [_HANDLER] is set:
    [processEvents().catch((err) => { console.error(err); Deno.exit(1) })] *)
Definition runtime (script : list Invocation) : list action :=
  match processEvents script with
  | (tr, _, inl err) => tr ++ [ConsoleError err; Exit 1]
  | (tr, _, inr _) => tr
  end.

(** *** What is read off a trace *)

Definition is_import (x : action) : bool :=
  match x with ImportHandler => true | _ => false end.

Definition is_call (x : action) : bool :=
  match x with CallHandler _ => true | _ => false end.

Definition imports (tr : list action) : nat := length (filter is_import tr).
Definition calls (tr : list action) : nat := length (filter is_call tr).







End Bootstrap.

(** ** [toLambdaErr] *)

Module LambdaError.

(** An [Error], as far as [toLambdaErr] reads it; [stack] may be
    [undefined]. *)
Record js_error : Type := mkJsError {
  name : string;
  message : string;
  stack : option string
}.

Record lambda_error : Type := mkLambdaError {
  errorType : string;
  errorMessage : string;
  stackTrace : list string
}.

Definition newline : ascii := "010"%char.

(** [s.split('\n')]: the pieces between the line feeds; there is always
    one piece, empty for the empty string. *)
Fixpoint split_lines (s : string) : list string :=
  match s with
  | EmptyString => [EmptyString]
  | String c s' =>
      if decide (c = newline) then EmptyString :: split_lines s'
      else match split_lines s' with
           | line :: lines => String c line :: lines
           | [] => [String c EmptyString]
           end
  end.

(** [toLambdaErr({ name, message, stack })]; [stack || ''] is [stack]
    unless it is [undefined] or empty, and then it is empty; [slice(1)]
    drops the first piece. *)
Definition toLambdaErr (e : js_error) : lambda_error :=
  {| errorType := name e;
     errorMessage := message e;
     stackTrace := drop 1 (split_lines (default EmptyString (stack e))) |}.

(** [lines.join('\n')] *)
Definition join_lines (lines : list string) : string :=
  String.concat (String newline EmptyString) lines.

Fixpoint has_newline (s : string) : bool :=
  match s with
  | EmptyString => false
  | String c s' => bool_decide (c = newline) || has_newline s'
  end.

End LambdaError.

(** ** What is said of a tree *)

Module Tree.

(** Every entry of the tree lies in a directory of the tree. *)
Definition closed (t : tree) : Prop :=
  forall (p : path) (name : string),
    is_Some (t !! (p ++ [name])) -> t !! p = Some Dir.

(** [dir] and the [k - 1] directories above it, taken out of the tree. *)
Fixpoint without_chain (k : nat) (dir : path) (t : tree) : tree :=
  match k with
  | 0 => t
  | S k' => without_chain k' (dirname dir) (delete dir t)
  end.

End Tree.

Import Tree.

(** ** [getFilesWithExtension] *)

Module Walk.




(** What a generator has done once it is exhausted or has thrown: the
    paths it yielded, in order, and the error if it threw. *)
Abbreviation yields := (list (list string) * option errno)%type.






End Walk.

(** ** The functions manifest of [buildEntrypoint] *)

Module Manifest.

(** A page of the manifest, as [./types] declares it. *)
Record Page : Type := mkPage {
  memory : option Z;
  handler : option string;
  runtime : option string;
  regions : option (list string);
  maxDuration : option Z
}.

(** [Partial<FunctionsManifest>] *)
Record FunctionsManifest : Type := mkManifest {
  version : option Z;
  pages : option (obj Page)
}.

(** What [buildEntrypoint] reads of its [config] for the manifest. *)
Record FunctionConfig : Type := mkConfig {
  config_memory : option Z;
  config_maxDuration : option Z;
  config_regions : option (list string)
}.

(** The end of [buildEntrypoint]: [read] is the manifest parsed from
    [functions-manifest.json], [None] when reading or parsing throws; the
    result is the manifest written back. *)
Definition update (read : option FunctionsManifest)
    (entrypointWithoutExt entrypoint : string) (config : FunctionConfig)
  : FunctionsManifest :=
  let functionsManifest := default {| version := None; pages := None |} read in
  (* [if (!functionsManifest.version) functionsManifest.version = 1] *)
  let version' :=
    match version functionsManifest with
    | None => 1%Z
    | Some v => if decide (v = 0%Z) then 1%Z else v
    end in
  (* [if (!functionsManifest.pages) functionsManifest.pages = {}] *)
  let pages' := default [] (pages functionsManifest) in
  {| version := Some version';
     pages :=
       Some (obj_set entrypointWithoutExt
               {| handler := Some entrypoint;
                  runtime := Some "provided.al2";
                  memory := config_memory config;
                  maxDuration := config_maxDuration config;
                  regions := config_regions config |}
               pages') |}.

(** [functionsManifest.pages[key]] of a manifest that was written *)
Definition page (key : string) (m : FunctionsManifest) : option Page :=
  obj_get key (default [] (pages m)).

End Manifest.

(** ** [moveCacheFiles]: moving the files *)

Module Move.

#[global] Instance node_eq_dec : EqDecision node.
Proof. solve_decision. Defined.

(** The root, the ancestors of [p] and [p] itself, from the root down. *)
Definition prefixes (p : path) : list path :=
  (fun k => take k p) <$> seq 0 (S (length p)).

(** [mkdir(p, { recursive: true })]; [None] is a rejected promise.  The
    call creates [p] and those of its ancestors that are missing, and
    rejects when [p] or one of its ancestors is a file. *)
Definition mkdir_recursive (p : path) (t : tree) : option tree :=
  if decide (Exists (fun q => t !! q = Some File) (prefixes p)) then None
  else Some (foldr (fun q t' => <[q := Dir]> t') t (prefixes p)).

(** Where a path goes when [src] is renamed to [dst]. *)
Definition reroot (src dst p : path) : path :=
  if decide (src `prefix_of` p) then dst ++ drop (length src) p else p.

(** The tree after [src] has taken the place of [dst]. *)
Definition moved (src dst : path) (t : tree) : tree :=
  kmap (reroot src dst) (delete dst t).

(** [rename(src, dst)]; [None] is a rejected promise.  Both paths are
    below the root; the directory of [dst] has to exist; renaming a path
    to itself does nothing; a directory cannot go into itself, nor take
    the place of one of its ancestors; what is at [dst], if anything, is
    replaced when it is a file and [src] is one, or an empty directory
    and [src] is a directory. *)
Definition rename (src dst : path) (t : tree) : option tree :=
  match t !! src with
  | None => None
  | Some s =>
      if decide (src = [] \/ dst = []) then None
      else if decide (t !! dirname dst <> Some Dir) then None
      else if decide (src = dst) then Some t
      else if decide (src `prefix_of` dst \/ dst `prefix_of` src) then None
      else
        match t !! dst, s with
        | None, _ => Some (moved src dst t)
        | Some File, File => Some (moved src dst t)
        | Some Dir, Dir =>
            if decide (children dst t = []) then Some (moved src dst t)
            else None
        | Some _, _ => None
        end
  end.

(** [for (const f of files) await rename(join(oldPathAbs, f),
    join(newPathAbs, f))] *)
Fixpoint rename_each (oldPathAbs newPathAbs : path) (files : list string)
    (t : tree) : option tree :=
  match files with
  | [] => Some t
  | f :: rest =>
      match rename (oldPathAbs ++ [f]) (newPathAbs ++ [f]) t with
      | None => None
      | Some t' => rename_each oldPathAbs newPathAbs rest t'
      end
  end.

(** The end of [moveCacheFiles]: the new directory is made, the entries
    of the old one are moved into it one by one, and the old directory is
    pruned.  [None] is a rejected promise. *)
Definition moveFiles (oldPathAbs newPathAbs : path) (t : tree) : option tree :=
  match mkdir_recursive newPathAbs t with
  | None => None
  | Some t1 =>
      match readdir oldPathAbs t1 with
      | Throw _ => None
      | Ok files =>
          match rename_each oldPathAbs newPathAbs files t1 with
          | None => None
          | Some t2 =>
              match Cleanup.deleteEmptyDirs oldPathAbs t2 with
              | Some (Ok t3) => Some t3
              | _ => None
              end
          end
      end
  end.

End Move.

(** * Properties *)

(** ** Strings *)

Lemma startsWith_app (p t : string) : startsWith (p +:+ t) p = true.
Proof.
  unfold startsWith. induction p as [|c p IH]; simpl.
  - by destruct t.
  - by destruct (Ascii.ascii_dec c c).
Qed.

Lemma substring_from_app (p t : string) :
  substring_from (String.length p) (p +:+ t) = t.
Proof. induction p as [|c p IH]; simpl; [by destruct t | done]. Qed.

Lemma substring_from_add (n m : nat) (s : string) :
  substring_from (n + m) s = substring_from m (substring_from n s).
Proof.
  revert s. induction n as [|n IH]; intros s; simpl; [done|].
  destruct s as [|c s]; [by destruct m | apply IH].
Qed.

#[global] Arguments substring_from : simpl never.
#[global] Arguments startsWith : simpl never.

(** ** The array loop *)

Section ArrayLoop.
Variables oldPath newPath : string.

Lemma rels_of_app (s1 s2 : list string) :
  rels_of oldPath (s1 ++ s2) = rels_of oldPath s1 ++ rels_of oldPath s2.
Proof. apply flat_map_app. Qed.

Lemma strings_of_app (l1 l2 : list jsval) :
  strings_of (l1 ++ l2) = strings_of l1 ++ strings_of l2.
Proof. apply omap_app. Qed.

Lemma strings_of_cons (x : jsval) (l : list jsval) :
  strings_of (x :: l) = strings_of [x] ++ strings_of l.
Proof. apply (strings_of_app [x] l). Qed.

Lemma discovered_app (l1 l2 : list jsval) :
  discovered oldPath (l1 ++ l2) = discovered oldPath l1 ++ discovered oldPath l2.
Proof. unfold discovered. by rewrite strings_of_app, rels_of_app. Qed.

Lemma discovered_cons (x : jsval) (l : list jsval) :
  discovered oldPath (x :: l) = discovered oldPath [x] ++ discovered oldPath l.
Proof. apply (discovered_app [x] l). Qed.

Lemma record_all_app (r1 r2 : list string) (a : Acc) :
  record_all (r1 ++ r2) a = record_all r2 (record_all r1 a).
Proof. apply foldl_app. Qed.

Lemma patch_at_lookup (arr : list jsval) (a : Acc) (i : nat) (x : jsval) :
  arr !! i = Some x ->
  patch_at oldPath newPath i (arr, a)
  = (<[i := relocate_entry oldPath newPath x]> arr,
     record_all (discovered oldPath [x]) a).
Proof.
  intros Hx. unfold patch_at. rewrite Hx.
  destruct x; simpl; try by rewrite list_insert_id.
  unfold relocate_string, discovered. simpl.
  destruct (startsWith s _); simpl; [done | by rewrite list_insert_id].
Qed.

Lemma patch_loop_spec (fuel i : nat) (arr : list jsval) (a : Acc) :
  i + fuel = length arr ->
  patch_loop oldPath newPath fuel i (arr, a)
  = (take i arr ++ (relocate_entry oldPath newPath <$> drop i arr),
     record_all (discovered oldPath (drop i arr)) a).
Proof.
  revert i arr a. induction fuel as [|fuel IH]; intros i arr a Hlen;
    cbn [patch_loop fst].
  - rewrite drop_ge, take_ge by lia. simpl. by rewrite app_nil_r.
  - destruct (decide (i < length arr)) as [Hi|]; [|lia].
    destruct (lookup_lt_is_Some_2 arr i Hi) as [x Hx].
    rewrite (patch_at_lookup _ _ _ _ Hx).
    rewrite IH by (rewrite length_insert; lia).
    rewrite (drop_S _ _ _ Hx), (discovered_cons x (drop (S i) arr)).
    rewrite record_all_app.
    rewrite drop_insert_lt by lia. f_equal.
    rewrite (take_S_r _ _ (relocate_entry oldPath newPath x))
      by (by apply list_lookup_insert_eq).
    rewrite take_insert_ge by lia. simpl. by rewrite <- app_assoc.
Qed.

(** The loop over an array is the entry-by-entry rewriting. *)
Lemma patch_array_spec (arr : list jsval) (a : Acc) :
  patch_array oldPath newPath arr a
  = (relocate_entry oldPath newPath <$> arr,
     record_all (discovered oldPath arr) a).
Proof. unfold patch_array. by rewrite patch_loop_spec. Qed.

End ArrayLoop.

(** C1: one pass over a dependency graph rewrites exactly the entries of
    [deps] that are strings beginning with the old-root URI prefix; such an
    entry is replaced, at its own index, by [file://] + new root + [/] +
    suffix, the suffix being the entry's text after the prefix and one more
    character.  Every other entry stays as it is at its index, and [deps]
    keeps its length: nothing is reordered, inserted or removed. *)
Theorem graph_deps_rewritten_in_place
    (oldPath newPath : string) (graph : Graph) (sf : option jsset) :
  let uri := "file://" +:+ oldPath in
  let deps' := deps (gr_graph (patch_graph oldPath newPath graph sf)) in
  length deps' = length (deps graph) /\
  (forall i s,
     deps graph !! i = Some (JStr s) -> startsWith s uri = true ->
     deps' !! i
     = Some (JStr ("file://" +:+ newPath +:+ "/"
                   +:+ substring_from (String.length uri + 1) s))) /\
  (forall i s,
     deps graph !! i = Some (JStr s) -> startsWith s uri = false ->
     deps' !! i = Some (JStr s)) /\
  (forall i e,
     deps graph !! i = Some e -> (forall s, e <> JStr s) ->
     deps' !! i = Some e).
Proof.
  intros uri deps'. subst uri deps'. unfold patch_graph.
  rewrite patch_array_spec. cbn [gr_graph deps].
  split; [by rewrite length_fmap|].
  repeat split; intros i x Hx H; rewrite list_lookup_fmap, Hx;
    cbn [fmap option_fmap option_map relocate_entry].
  - unfold relocate_string, workPathUri. by rewrite H.
  - unfold relocate_string, workPathUri. by rewrite H.
  - destruct x; try done. by destruct (H s).
Qed.

Lemma graph_deps_rewritten_in_place_witness :
  let g := {| deps := [JStr "file:///build/mod.ts"; JNum 7;
                       JStr "https://deno.land/x/mod.ts"];
              version_hash := "abc" |} in
  deps (gr_graph (patch_graph "/build" "/var/task" g None))
  = [JStr "file:///var/task/mod.ts"; JNum 7; JStr "https://deno.land/x/mod.ts"].
Proof.
  intros g.
  destruct (graph_deps_rewritten_in_place "/build" "/var/task" g None)
    as (Hlen & Hhit & Hmiss & Hother).
  apply list_eq. intros [|[|[|i]]].
  - by rewrite (Hhit 0 "file:///build/mod.ts").
  - rewrite (Hother 1 (JNum 7)); done.
  - by rewrite (Hmiss 2 "https://deno.land/x/mod.ts").
  - reflexivity.
Defined.

(** ** Objects *)

Section ObjFacts.
Context {V : Type}.
Implicit Types (m : list (string * V)) (k x : string) (v w : V).

Lemma obj_get_set x k v m :
  obj_get x (obj_set k v m) = if decide (x = k) then Some v else obj_get x m.
Proof.
  induction m as [|[k' v'] m IH]; simpl.
  - by destruct (decide (x = k)).
  - destruct (decide (k = k')) as [->|Hk]; simpl.
    + by destruct (decide (x = k')).
    + destruct (decide (x = k')) as [->|]; [|done].
      by destruct (decide (k' = k)).
Qed.

Lemma obj_get_delete x k m :
  obj_get x (obj_delete k m) = if decide (x = k) then None else obj_get x m.
Proof.
  induction m as [|[k' v'] m IH]; simpl.
  - by destruct (decide (x = k)).
  - destruct (decide (k = k')) as [->|Hk]; simpl.
    + rewrite IH. destruct (decide (x = k')); done.
    + rewrite IH. destruct (decide (x = k')) as [->|]; [|done].
      by destruct (decide (k' = k)).
Qed.

Lemma obj_get_None x m : obj_get x m = None <-> x ∉ obj_keys m.
Proof.
  unfold obj_keys. induction m as [|[k' v'] m IH]; simpl.
  - split; [intros _; apply not_elem_of_nil | done].
  - rewrite not_elem_of_cons.
    destruct (decide (x = k')) as [->|]; [|tauto].
    split; [done | tauto].
Qed.

Lemma obj_get_NoDup x v m :
  NoDup (obj_keys m) -> (x, v) ∈ m -> obj_get x m = Some v.
Proof.
  unfold obj_keys. induction m as [|[k' v'] m IH]; simpl.
  - intros _ H. by apply elem_of_nil in H.
  - intros Hnd H. apply NoDup_cons in Hnd as [Hk' Hnd].
    apply elem_of_cons in H as [[= -> ->]|H].
    + by destruct (decide (k' = k')).
    + destruct (decide (x = k')) as [->|]; [|by apply IH].
      destruct Hk'. apply list_elem_of_fmap. by exists (k', v).
Qed.

Lemma elem_of_obj_keys x m : x ∈ obj_keys m <-> is_Some (obj_get x m).
Proof.
  rewrite <- not_eq_None_Some, obj_get_None.
  split; [tauto | apply dec_stable].
Qed.

Lemma elem_of_keys_set x k v m :
  x ∈ obj_keys (obj_set k v m) <-> x = k \/ x ∈ obj_keys m.
Proof.
  rewrite !elem_of_obj_keys, obj_get_set.
  destruct (decide (x = k)); [|tauto].
  split; [tauto | by eexists].
Qed.

Lemma elem_of_keys_delete x k m :
  x ∈ obj_keys (obj_delete k m) <-> x <> k /\ x ∈ obj_keys m.
Proof.
  rewrite !elem_of_obj_keys, obj_get_delete.
  destruct (decide (x = k)); [|tauto].
  split; [by intros [? [=]] | tauto].
Qed.

Lemma elem_of_obj_set x w k v m :
  (x, w) ∈ obj_set k v m -> (x = k /\ w = v) \/ (x, w) ∈ m.
Proof.
  induction m as [|[k' v'] m IH]; simpl.
  - intros H. apply list_elem_of_singleton in H as [= -> ->]. by left.
  - destruct (decide (k = k')) as [->|Hk]; rewrite !elem_of_cons.
    + intros [[= -> ->]|H]; [by left | by right; right].
    + intros [[= -> ->]|H]; [by right; left|].
      destruct (IH H) as [?|?]; [by left | by right; right].
Qed.

Lemma elem_of_obj_delete x w k m :
  (x, w) ∈ obj_delete k m <-> x <> k /\ (x, w) ∈ m.
Proof.
  induction m as [|[k' v'] m IH]; simpl.
  - rewrite elem_of_nil. tauto.
  - destruct (decide (k = k')) as [->|Hk]; rewrite ?elem_of_cons, IH.
    + split; [tauto|]. intros [Hx [[= -> ->]|H]]; done.
    + split.
      * intros [[= -> ->]|[? ?]]; [split; [done | by left] | tauto].
      * tauto.
Qed.

End ObjFacts.

(** ** The loops of the build-info pass, taken apart *)

Section PassFacts.
Variables oldPath newPath : string.

Lemma record_all_sourceFiles (rels : list string) (a : Acc) :
  sourceFiles (record_all rels a) = add_all rels <$> sourceFiles a.
Proof.
  revert a. induction rels as [|r rels IH]; intros a; simpl.
  - by destruct (sourceFiles a).
  - rewrite IH. simpl. by destruct (sourceFiles a).
Qed.

Lemma record_all_needsWrite (rels : list string) (a : Acc) :
  needsWrite (record_all rels a)
  = match rels with [] => needsWrite a | _ => true end.
Proof.
  destruct rels as [|r rels]; [done|]. simpl.
  generalize (record_rewrite r a), (eq_refl : needsWrite (record_rewrite r a) = true).
  induction rels as [|r' rels IH]; intros b Hb; simpl; [done|].
  by apply IH.
Qed.

Lemma rekey_fileInfo_eq (m : list (string * jsval)) (a : Acc) (k : string) :
  rekey_fileInfo oldPath newPath (m, a) k
  = (rekey oldPath newPath m k (default JUndefined (obj_get k m)),
     record_all (rels_of oldPath [k]) a).
Proof.
  unfold rekey_fileInfo, rekey, rels_of. simpl.
  by destruct (startsWith k _).
Qed.

Lemma patch_fileInfos_acc (ks : list string) (m : list (string * jsval)) (a : Acc) :
  (foldl (rekey_fileInfo oldPath newPath) (m, a) ks).2
  = record_all (rels_of oldPath ks) a.
Proof.
  revert m a. induction ks as [|k ks IH]; intros m a; [done|].
  cbn [foldl]. rewrite rekey_fileInfo_eq, IH.
  change (k :: ks) with ([k] ++ ks).
  by rewrite rels_of_app, record_all_app.
Qed.

Lemma patch_entry_eq (st : MapState) (k : string) (r : nat) :
  patch_entry oldPath newPath st (k, r)
  = let l := default [] (ms_heap st !! r) in
    {| ms_map := rekey oldPath newPath (ms_map st) k r;
       ms_heap := <[r := relocate_array oldPath newPath l]> (ms_heap st);
       ms_acc := record_all (rels_of oldPath (strings_of l ++ [k])) (ms_acc st) |}.
Proof.
  unfold patch_entry, rekey. rewrite patch_array_spec.
  rewrite rels_of_app, record_all_app. fold (discovered oldPath).
  unfold rels_of at 2. simpl.
  by destruct (startsWith k _).
Qed.

Lemma entries_map (st : MapState) (es : list (string * nat)) :
  ms_map (foldl (patch_entry oldPath newPath) st es)
  = foldl (fun mp e => rekey oldPath newPath mp e.1 e.2) (ms_map st) es.
Proof.
  revert st. induction es as [|[k r] es IH]; intros st; [done|].
  cbn [foldl]. rewrite IH, patch_entry_eq. done.
Qed.

Lemma entries_heap_acc (todo : list (string * list jsval))
    (done_heap : list (list jsval)) (mp : list (string * nat)) (a : Acc) :
  let st := foldl (patch_entry oldPath newPath)
              {| ms_map := mp; ms_heap := done_heap ++ todo.*2; ms_acc := a |}
              (imap (fun i kv => (kv.1, length done_heap + i)) todo) in
  ms_heap st
  = done_heap ++ (relocate_array oldPath newPath <$> todo.*2) /\
  ms_acc st = record_all (rels_of oldPath (strings_of_map todo)) a.
Proof.
  revert done_heap mp a.
  induction todo as [|[k l] todo IH]; intros done_heap mp a; [done|].
  cbn [imap foldl fmap list_fmap fst snd]. rewrite patch_entry_eq.
  cbn [ms_heap ms_map ms_acc].
  rewrite list_lookup_middle by lia. cbn [default].
  rewrite insert_app_r. cbn [insert list_insert]. unfold id.
  rewrite Nat.add_0_r.
  specialize (IH (done_heap ++ [relocate_array oldPath newPath l])).
  rewrite <- (assoc_L (++)) in IH. cbn [app] in IH.
  rewrite length_app in IH. cbn [length] in IH.
  rewrite (imap_ext _ (fun i (kv : string * list jsval) =>
                         (kv.1, length done_heap + 1 + i)))
    by (intros; simpl; f_equal; lia).
  destruct (IH (rekey oldPath newPath mp k (length done_heap))
              (record_all (rels_of oldPath (strings_of l ++ [k])) a))
    as [-> ->].
  split; [by rewrite <- (assoc_L (++))|].
  unfold strings_of_map. cbn [flat_map fst snd].
  by rewrite (rels_of_app _ (strings_of l ++ [k])), record_all_app.
Qed.

Lemma run_entries_heap (m : list (string * list jsval)) (a : Acc) :
  ms_heap (run_entries oldPath newPath m a)
  = relocate_array oldPath newPath <$> m.*2.
Proof.
  unfold run_entries, alloc.
  by destruct (entries_heap_acc m [] (imap (fun i kv => (kv.1, i)) m) a)
    as [H _].
Qed.

Lemma run_entries_acc (m : list (string * list jsval)) (a : Acc) :
  ms_acc (run_entries oldPath newPath m a)
  = record_all (rels_of oldPath (strings_of_map m)) a.
Proof.
  unfold run_entries, alloc.
  by destruct (entries_heap_acc m [] (imap (fun i kv => (kv.1, i)) m) a)
    as [_ H].
Qed.

Lemma run_entries_map (m : list (string * list jsval)) (a : Acc) :
  ms_map (run_entries oldPath newPath m a)
  = foldl (fun mp e => rekey oldPath newPath mp e.1 e.2)
      (alloc m).1 (alloc m).1.
Proof. unfold run_entries, alloc. by rewrite entries_map. Qed.

Lemma patch_optional_eq (arr : option (list jsval)) (a : Acc) :
  patch_optional oldPath newPath arr a
  = (relocate_array oldPath newPath <$> arr,
     record_all (rels_of oldPath (strings_of (default [] arr))) a).
Proof.
  unfold patch_optional. destruct arr as [l|]; rewrite patch_array_spec; done.
Qed.

(** The set and the flag after the pass over a build-info document. *)
Lemma patch_buildInfo_acc (b : BuildInfo) (sf : option jsset) :
  let r := patch_buildInfo oldPath newPath b sf in
  let rels := rels_of oldPath (strings_of_buildInfo b) in
  br_sourceFiles r = add_all rels <$> sf /\
  br_written r = match rels with [] => None | _ => Some (br_buildInfo r) end.
Proof.
  unfold patch_buildInfo.
  destruct (patch_fileInfos _ _ _ _) as [fi a1] eqn:E1.
  destruct (patch_refMap _ _ (referencedMap _) _) as [rm a2] eqn:E2.
  destruct (patch_refMap _ _ (exportedModulesMap _) _) as [em a3] eqn:E3.
  rewrite !patch_optional_eq. cbn zeta. cbn [br_sourceFiles br_written br_buildInfo].
  assert (a1 = record_all (rels_of oldPath (obj_keys (fileInfos (program b))))
                 (mkAcc sf false)) as ->.
  { unfold patch_fileInfos in E1. rewrite <- patch_fileInfos_acc with (m := fileInfos (program b)).
    by rewrite E1. }
  assert (a2 = record_all (rels_of oldPath (strings_of_map (referencedMap (program b)))) 
                 (record_all (rels_of oldPath (obj_keys (fileInfos (program b))))
                   (mkAcc sf false))) as ->.
  { unfold patch_refMap in E2. injection E2 as _ <-. apply run_entries_acc. }
  assert (a3 = record_all (rels_of oldPath (strings_of_map (exportedModulesMap (program b))))
                (record_all (rels_of oldPath (strings_of_map (referencedMap (program b)))) 
                 (record_all (rels_of oldPath (obj_keys (fileInfos (program b))))
                   (mkAcc sf false)))) as ->.
  { unfold patch_refMap in E3. injection E3 as _ <-. apply run_entries_acc. }
  rewrite <- !record_all_app, <- !rels_of_app.
  fold (strings_of_buildInfo b).
  rewrite record_all_sourceFiles, record_all_needsWrite. cbn [sourceFiles needsWrite].
  split; [done|].
  by destruct (rels_of oldPath (strings_of_buildInfo b)).
Qed.

End PassFacts.

(** ** The set of discovered source files *)

Lemma elem_of_set_add (x y : string) (s : list string) :
  x ∈ set_add y s <-> x = y \/ x ∈ s.
Proof.
  unfold set_add. destruct (decide (y ∈ s)) as [Hy|Hy].
  - split; [tauto|]. by intros [->|?].
  - rewrite elem_of_app, list_elem_of_singleton. tauto.
Qed.

Lemma set_add_NoDup (y : string) (s : list string) :
  NoDup s -> NoDup (set_add y s).
Proof.
  intros Hs. unfold set_add. destruct (decide (y ∈ s)) as [Hy|Hy]; [done|].
  apply NoDup_app. split_and!; [done | | apply NoDup_singleton].
  intros x Hx Hx'. apply list_elem_of_singleton in Hx'. by subst.
Qed.

Lemma elem_of_add_all (x : string) (rels s : list string) :
  x ∈ add_all rels s <-> x ∈ s \/ x ∈ rels.
Proof.
  unfold add_all. revert s. induction rels as [|r rels IH]; intros s; simpl.
  - rewrite elem_of_nil. tauto.
  - rewrite IH, elem_of_set_add, elem_of_cons. tauto.
Qed.

Lemma add_all_NoDup (rels s : list string) :
  NoDup s -> NoDup (add_all rels s).
Proof.
  unfold add_all. revert s. induction rels as [|r rels IH]; intros s Hs; simpl.
  - done.
  - by apply IH, set_add_NoDup.
Qed.

Lemma elem_of_rels_of (oldPath r : string) (ss : list string) :
  r ∈ rels_of oldPath ss <->
  exists s, s ∈ ss /\ startsWith s (workPathUri oldPath) = true /\
            r = relative_of oldPath s.
Proof.
  unfold rels_of. rewrite list_elem_of_In, in_flat_map.
  split.
  - intros (s & Hs & Hr). exists s. apply list_elem_of_In in Hs.
    destruct (startsWith s _); [|by destruct Hr].
    destruct Hr as [<-|[]]. done.
  - intros (s & Hs & Hm & ->). exists s. rewrite Hm.
    split; [by apply list_elem_of_In | by left].
Qed.

Lemma rels_of_nil (oldPath : string) (ss : list string) :
  rels_of oldPath ss = [] <-> refers_to_old oldPath ss = false.
Proof.
  unfold rels_of, refers_to_old.
  induction ss as [|s ss IH]; simpl; [done|].
  destruct (startsWith s _); simpl; [done | apply IH].
Qed.

Lemma refers_to_old_app (oldPath : string) (s1 s2 : list string) :
  refers_to_old oldPath (s1 ++ s2)
  = refers_to_old oldPath s1 || refers_to_old oldPath s2.
Proof. apply existsb_app. Qed.

(** ** A document without reference to the old root *)

Section Untouched.
Variables oldPath newPath : string.

Lemma relocate_array_id (l : list jsval) :
  refers_to_old oldPath (strings_of l) = false ->
  relocate_array oldPath newPath l = l.
Proof.
  unfold relocate_array. induction l as [|e l IH]; [done|].
  intros H. cbn [fmap list_fmap]. destruct e; simpl in H |- *;
    try (f_equal; by apply IH).
  apply orb_false_iff in H as [Hs H]. unfold relocate_string.
  rewrite Hs. f_equal. by apply IH.
Qed.

Lemma foldl_rekey_id {V : Type} (es : list (string * V)) (mp : list (string * V)) :
  refers_to_old oldPath es.*1 = false ->
  foldl (fun mp e => rekey oldPath newPath mp e.1 e.2) mp es = mp.
Proof.
  induction es as [|[k v] es IH]; [done|]. simpl.
  intros H. apply orb_false_iff in H as [Hk H].
  unfold rekey at 2. rewrite Hk. by apply IH.
Qed.

Lemma deref_alloc_from (pre : list (list jsval)) (m : list (string * list jsval)) :
  deref (pre ++ m.*2) (imap (fun i kv => (kv.1, length pre + i)) m) = m.
Proof.
  unfold deref. revert pre. induction m as [|[k l] m IH]; intros pre; [done|].
  cbn [imap fmap list_fmap fst snd].
  rewrite list_lookup_middle by lia. cbn [default]. f_equal.
  specialize (IH (pre ++ [l])). rewrite <- (assoc_L (++)) in IH.
  rewrite length_app in IH. cbn [app length] in IH.
  etransitivity; [|exact IH]. f_equal.
  apply imap_ext. intros; simpl; f_equal; lia.
Qed.

Lemma deref_alloc (m : list (string * list jsval)) :
  deref (alloc m).2 (alloc m).1 = m.
Proof. apply (deref_alloc_from [] m). Qed.

Lemma imap_keys {V : Type} (f : nat -> nat) (m : list (string * V)) :
  (imap (fun i kv => (kv.1, f i)) m).*1 = m.*1.
Proof.
  revert f. induction m as [|[k l] m IH]; intros f; [done|].
  cbn [imap fmap list_fmap fst]. f_equal. apply (IH (f ∘ S)).
Qed.

Lemma alloc_keys (m : list (string * list jsval)) : (alloc m).1.*1 = m.*1.
Proof. apply (imap_keys id). Qed.

Lemma strings_of_map_keys (m : list (string * list jsval)) :
  refers_to_old oldPath (strings_of_map m) = false ->
  refers_to_old oldPath m.*1 = false /\
  Forall (fun l => refers_to_old oldPath (strings_of l) = false) m.*2.
Proof.
  unfold strings_of_map. induction m as [|[k l] m IH]; [by split|].
  cbn [flat_map fmap list_fmap fst snd].
  rewrite !refers_to_old_app, !orb_false_iff. intros [[Hl Hk] Hm].
  destruct (IH Hm) as [Hks Hls]. split.
  - change (k :: m.*1) with ([k] ++ m.*1).
    rewrite refers_to_old_app. by rewrite Hk, Hks.
  - by constructor.
Qed.

Lemma patch_refMap_id (m : list (string * list jsval)) (a : Acc) :
  refers_to_old oldPath (strings_of_map m) = false ->
  (patch_refMap oldPath newPath m a).1 = m.
Proof.
  intros H. apply strings_of_map_keys in H as [Hk Hl].
  unfold patch_refMap. cbn [fst].
  rewrite run_entries_heap, run_entries_map.
  rewrite foldl_rekey_id by (by rewrite alloc_keys).
  rewrite <- (deref_alloc m) at 3. f_equal.
  unfold alloc. cbn [snd]. induction Hl as [|l ls Hl _ IH]; [done|].
  cbn [fmap list_fmap]. by rewrite relocate_array_id, IH.
Qed.

Lemma patch_fileInfos_id (m : list (string * jsval)) (a : Acc) :
  refers_to_old oldPath (obj_keys m) = false ->
  (patch_fileInfos oldPath newPath m a).1 = m.
Proof.
  unfold patch_fileInfos. generalize (obj_keys m). intros ks.
  revert a. induction ks as [|k ks IH]; intros a H; [done|].
  simpl in H. apply orb_false_iff in H as [Hk H].
  cbn [foldl]. rewrite rekey_fileInfo_eq. unfold rekey. rewrite Hk.
  by apply IH.
Qed.

End Untouched.

Lemma patch_graph_eq (oldPath newPath : string) (graph : Graph) (sf : option jsset) :
  let rels := rels_of oldPath (strings_of (deps graph)) in
  let graph' := {| deps := relocate_array oldPath newPath (deps graph);
                   version_hash := version_hash graph |} in
  patch_graph oldPath newPath graph sf
  = {| gr_graph := graph';
       gr_written := match rels with [] => None | _ => Some graph' end;
       gr_sourceFiles := add_all rels <$> sf |}.
Proof.
  unfold patch_graph. rewrite patch_array_spec. cbn zeta.
  rewrite record_all_sourceFiles, record_all_needsWrite.
  unfold discovered. cbn [sourceFiles needsWrite].
  by destruct (rels_of oldPath (strings_of (deps graph))).
Qed.

Lemma refers_to_old_flat_map {A : Type} (oldPath : string)
    (f : A -> list string) (l : list A) (x : A) :
  refers_to_old oldPath (flat_map f l) = false ->
  x ∈ l -> refers_to_old oldPath (f x) = false.
Proof.
  induction l as [|y l IH]; intros H Hx; [by apply elem_of_nil in Hx|].
  cbn [flat_map] in H. rewrite refers_to_old_app in H.
  apply orb_false_iff in H as [Hy Hl].
  apply elem_of_cons in Hx as [->|Hx]; [done | by apply IH].
Qed.

(** ** The loops over the files *)

Section Files.
Variables oldPath newPath : string.

Lemma add_all_app (r1 r2 : list string) (sf : option jsset) :
  add_all r2 <$> (add_all r1 <$> sf) = add_all (r1 ++ r2) <$> sf.
Proof. unfold add_all. destruct sf; [|done]. cbn. by rewrite foldl_app. Qed.

Lemma rels_of_refers (ss : list string) :
  refers_to_old oldPath ss = match rels_of oldPath ss with [] => false | _ => true end.
Proof.
  destruct (rels_of oldPath ss) eqn:E.
  - by apply rels_of_nil.
  - destruct (refers_to_old oldPath ss) eqn:E'; [done|].
    apply rels_of_nil in E'. congruence.
Qed.

Lemma visit_graph_eq (w : list (string * document)) (sf : option jsset)
    (file : string) (g : Graph) :
  visit_graph oldPath newPath (w, sf) (file, g)
  = (w ++ (if refers_to_old oldPath (strings_of (deps g))
           then [(file, GraphDoc (gr_graph (patch_graph oldPath newPath g sf)))]
           else []),
     add_all (rels_of oldPath (strings_of (deps g))) <$> sf).
Proof.
  unfold visit_graph. cbn [fst snd]. rewrite rels_of_refers, patch_graph_eq.
  cbn zeta. cbn [gr_written gr_sourceFiles gr_graph].
  by destruct (rels_of oldPath (strings_of (deps g))).
Qed.

Lemma visit_buildInfo_eq (w : list (string * document)) (sf : option jsset)
    (file : string) (b : BuildInfo) :
  visit_buildInfo oldPath newPath (w, sf) (file, b)
  = (w ++ (if refers_to_old oldPath (strings_of_buildInfo b)
           then [(file, BuildInfoDoc
                          (br_buildInfo (patch_buildInfo oldPath newPath b sf)))]
           else []),
     add_all (rels_of oldPath (strings_of_buildInfo b)) <$> sf).
Proof.
  unfold visit_buildInfo. cbn [fst snd]. rewrite rels_of_refers.
  destruct (patch_buildInfo_acc oldPath newPath b sf) as [-> ->].
  by destruct (rels_of oldPath (strings_of_buildInfo b)).
Qed.

Lemma visit_graphs (gs : list (string * Graph))
    (w : list (string * document)) (sf : option jsset) :
  let r := foldl (visit_graph oldPath newPath) (w, sf) gs in
  r.2 = add_all (rels_of oldPath (flat_map (fun f => strings_of (deps f.2)) gs))
        <$> sf /\
  forall x, x ∈ r.1 ->
    x ∈ w \/ exists g, (x.1, g) ∈ gs /\
                       refers_to_old oldPath (strings_of (deps g)) = true.
Proof.
  cbn zeta. revert w sf. induction gs as [|[file g] gs IH]; intros w sf.
  { split; [by destruct sf | by left]. }
  cbn [foldl flat_map fst snd]. rewrite visit_graph_eq.
  destruct (IH (w ++ (if refers_to_old oldPath (strings_of (deps g))
                      then [(file, GraphDoc (gr_graph (patch_graph oldPath newPath g sf)))]
                      else []))
               (add_all (rels_of oldPath (strings_of (deps g))) <$> sf))
    as [-> Hw].
  split; [by rewrite add_all_app, rels_of_app|].
  intros x Hx. destruct (Hw x Hx) as [Hin|(g' & Hg' & Hr)].
  - apply elem_of_app in Hin as [?|Hin]; [by left|]. right. exists g.
    destruct (refers_to_old oldPath (strings_of (deps g))) eqn:E;
      [|by apply elem_of_nil in Hin].
    apply list_elem_of_singleton in Hin as ->. split; [by left | done].
  - right. exists g'. split; [by right | done].
Qed.

Lemma visit_buildInfos (bs : list (string * BuildInfo))
    (w : list (string * document)) (sf : option jsset) :
  let r := foldl (visit_buildInfo oldPath newPath) (w, sf) bs in
  r.2 = add_all (rels_of oldPath (flat_map (fun f => strings_of_buildInfo f.2) bs))
        <$> sf /\
  forall x, x ∈ r.1 ->
    x ∈ w \/ exists b, (x.1, b) ∈ bs /\
                       refers_to_old oldPath (strings_of_buildInfo b) = true.
Proof.
  cbn zeta. revert w sf. induction bs as [|[file b] bs IH]; intros w sf.
  { split; [by destruct sf | by left]. }
  cbn [foldl flat_map fst snd]. rewrite visit_buildInfo_eq.
  destruct (IH (w ++ (if refers_to_old oldPath (strings_of_buildInfo b)
                      then [(file, BuildInfoDoc
                                     (br_buildInfo (patch_buildInfo oldPath newPath b sf)))]
                      else []))
               (add_all (rels_of oldPath (strings_of_buildInfo b)) <$> sf))
    as [-> Hw].
  split; [by rewrite add_all_app, rels_of_app|].
  intros x Hx. destruct (Hw x Hx) as [Hin|(b' & Hb' & Hr)].
  - apply elem_of_app in Hin as [?|Hin]; [by left|]. right. exists b.
    destruct (refers_to_old oldPath (strings_of_buildInfo b)) eqn:E;
      [|by apply elem_of_nil in Hin].
    apply list_elem_of_singleton in Hin as ->. split; [by left | done].
  - right. exists b'. split; [by right | done].
Qed.

(** The run over all the files: the set at the end, and where each write
    comes from. *)
Lemma patch_files_spec (gs : list (string * Graph))
    (bs : list (string * BuildInfo)) (sf : option jsset) :
  let r := patch_files oldPath newPath gs bs sf in
  r.2 = add_all (rels_of oldPath (strings_of_files gs bs)) <$> sf /\
  forall file d, (file, d) ∈ r.1 ->
    (exists g, (file, g) ∈ gs /\
               refers_to_old oldPath (strings_of (deps g)) = true) \/
    (exists b, (file, b) ∈ bs /\
               refers_to_old oldPath (strings_of_buildInfo b) = true).
Proof.
  cbn zeta. unfold patch_files, strings_of_files.
  destruct (visit_graphs gs [] sf) as [Eg Hg]. cbn zeta in Eg, Hg.
  destruct (foldl (visit_graph oldPath newPath) ([], sf) gs) as [w1 sf1].
  cbn [fst snd] in Eg, Hg. subst sf1.
  destruct (visit_buildInfos bs w1
              (add_all (rels_of oldPath
                 (flat_map (fun f => strings_of (deps f.2)) gs)) <$> sf))
    as [Eb Hb]. cbn zeta in Eb, Hb.
  split; [by rewrite Eb, add_all_app, rels_of_app|].
  intros file d Hin. destruct (Hb _ Hin) as [Hw|?]; [|by right].
  destruct (Hg _ Hw) as [Hnil|?]; [by apply elem_of_nil in Hnil | by left].
Qed.

End Files.

(** C4: a graph or build-info document in which no string at a place the
    pass looks at begins with the old-root URI prefix comes out of the pass
    as it went in, with the flag false: it is not written back and the set
    is left alone.  Conversely a document is written back only when some
    string of it begins with the prefix, that is when a rewrite occurred.
    Over all the files of a run: every [writeFile] is for a file that holds
    such a string, and a run over files that hold none writes nothing. *)
Theorem pass_without_reference_is_noop (oldPath newPath : string) :
  (forall (graph : Graph) (sf : option jsset),
     let r := patch_graph oldPath newPath graph sf in
     (refers_to_old oldPath (strings_of (deps graph)) = false ->
      r = {| gr_graph := graph; gr_written := None; gr_sourceFiles := sf |}) /\
     (is_Some (gr_written r) ->
      refers_to_old oldPath (strings_of (deps graph)) = true)) /\
  (forall (b : BuildInfo) (sf : option jsset),
     let r := patch_buildInfo oldPath newPath b sf in
     (refers_to_old oldPath (strings_of_buildInfo b) = false ->
      r = {| br_buildInfo := b; br_written := None; br_sourceFiles := sf |}) /\
     (is_Some (br_written r) ->
      refers_to_old oldPath (strings_of_buildInfo b) = true)) /\
  (forall (graphs : list (string * Graph))
          (buildInfos : list (string * BuildInfo)) (sf : option jsset),
     let r := patch_files oldPath newPath graphs buildInfos sf in
     (refers_to_old oldPath (strings_of_files graphs buildInfos) = false ->
      r = ([], sf)) /\
     (forall file d, (file, d) ∈ r.1 ->
        (exists g, (file, g) ∈ graphs /\
                   refers_to_old oldPath (strings_of (deps g)) = true) \/
        (exists b, (file, b) ∈ buildInfos /\
                   refers_to_old oldPath (strings_of_buildInfo b) = true))).
Proof.
  split_and!.
  - intros graph sf r. subst r. rewrite patch_graph_eq. cbn zeta. split.
    + intros H. rewrite relocate_array_id by done.
      apply rels_of_nil in H. rewrite H. cbn [add_all foldl].
      destruct graph, sf; done.
    + cbn [gr_written]. intros Hw.
      destruct (refers_to_old oldPath _) eqn:E; [done|].
      apply rels_of_nil in E. rewrite E in Hw. by destruct Hw.
  - intros b sf r.
    destruct (patch_buildInfo_acc oldPath newPath b sf) as [Hsf Hw].
    cbn zeta in Hsf, Hw. fold r in Hsf, Hw. split.
    + intros H. pose proof H as Hrels. apply rels_of_nil in Hrels.
      rewrite Hrels in Hsf, Hw. cbn [add_all foldl] in Hsf.
      assert (br_buildInfo r = b) as Hb.
      { subst r. unfold patch_buildInfo.
        unfold strings_of_buildInfo in H.
        rewrite !refers_to_old_app, !orb_false_iff in H.
        destruct H as (Hfi & Hrm & Hem & Hfn & Hsd).
        pose proof (patch_fileInfos_id oldPath newPath _ (mkAcc sf false) Hfi) as E1.
        destruct (patch_fileInfos _ _ _ _) as [fi a1]. cbn [fst] in E1.
        pose proof (patch_refMap_id oldPath newPath _ a1 Hrm) as E2.
        destruct (patch_refMap _ _ (referencedMap _) _) as [rm a2]. cbn [fst] in E2.
        pose proof (patch_refMap_id oldPath newPath _ a2 Hem) as E3.
        destruct (patch_refMap _ _ (exportedModulesMap _) _) as [em a3]. cbn [fst] in E3.
        rewrite !patch_optional_eq. cbn zeta. cbn [br_buildInfo]. subst.
        destruct b as [[fn fi rm em sd] v]. cbn in *. do 2 f_equal.
        - destruct fn as [l|]; [|done]. cbn. by rewrite relocate_array_id.
        - destruct sd as [l|]; [|done]. cbn. by rewrite relocate_array_id. }
      destruct r as [b' w' sf']. cbn in *. subst. by destruct sf.
    + intros Hsome. destruct (refers_to_old oldPath _) eqn:E; [done|].
      apply rels_of_nil in E. rewrite E in Hw. rewrite Hw in Hsome.
      by destruct Hsome.
  - intros graphs buildInfos sf r.
    destruct (patch_files_spec oldPath newPath graphs buildInfos sf) as [Hsf Hw].
    cbn zeta in Hsf, Hw. fold r in Hsf, Hw. split; [|exact Hw].
    intros H. pose proof H as Hrels. apply rels_of_nil in Hrels.
    rewrite Hrels in Hsf. cbn [add_all foldl] in Hsf.
    destruct r as [[|[file d] w] sf']; cbn [fst snd] in *.
    + f_equal. rewrite Hsf. by destruct sf.
    + exfalso. unfold strings_of_files in H.
      rewrite refers_to_old_app in H. apply orb_false_iff in H as [Hg Hb].
      destruct (Hw file d) as [(g & Hin & Hr)|(b & Hin & Hr)]; [by left | |].
      * apply (refers_to_old_flat_map oldPath _ _ _ Hg) in Hin.
        cbn [snd] in Hin. congruence.
      * apply (refers_to_old_flat_map oldPath _ _ _ Hb) in Hin.
        cbn [snd] in Hin. congruence.
Qed.

Lemma pass_without_reference_is_noop_witness :
  let b := {| program :=
                {| fileNames := Some [JStr "https://deno.land/std/http/server.ts"];
                   fileInfos := [("https://deno.land/std/http/server.ts", JNull)];
                   referencedMap := [("https://deno.land/x/a.ts", [JStr "https://deno.land/x/b.ts"])];
                   exportedModulesMap := [];
                   semanticDiagnosticsPerFile := None |};
              version := "4.4.2" |} in
  patch_buildInfo "/build" "/var/task" b (Some ["api/index.ts"])
  = {| br_buildInfo := b; br_written := None;
       br_sourceFiles := Some ["api/index.ts"] |}.
Proof.
  intros b.
  apply (proj1 (proj2 (pass_without_reference_is_noop "/build" "/var/task"))).
  reflexivity.
Defined.

(** C6: a pass handed a set of discovered source files leaves in it, once
    each, the relative path of every string it rewrites ([deps] entries;
    keys of [fileInfos]; keys and list entries of [referencedMap] and
    [exportedModulesMap]; entries of [fileNames] and of
    [semanticDiagnosticsPerFile]); what was in the set stays in it, and
    nothing else is added.  The same holds of the set at the end of a run
    over all the graph and build-info files, which share it. *)
Theorem discovery_complete (oldPath newPath : string) (sf : jsset) :
  NoDup sf ->
  (forall graph : Graph,
     exists sf',
       gr_sourceFiles (patch_graph oldPath newPath graph (Some sf)) = Some sf' /\
       NoDup sf' /\ sf ⊆ sf' /\
       (forall s, s ∈ strings_of (deps graph) ->
                  startsWith s (workPathUri oldPath) = true ->
                  relative_of oldPath s ∈ sf') /\
       (forall x, x ∈ sf' ->
                  x ∈ sf \/ x ∈ rels_of oldPath (strings_of (deps graph)))) /\
  (forall b : BuildInfo,
     exists sf',
       br_sourceFiles (patch_buildInfo oldPath newPath b (Some sf)) = Some sf' /\
       NoDup sf' /\ sf ⊆ sf' /\
       (forall s, s ∈ strings_of_buildInfo b ->
                  startsWith s (workPathUri oldPath) = true ->
                  relative_of oldPath s ∈ sf') /\
       (forall x, x ∈ sf' ->
                  x ∈ sf \/ x ∈ rels_of oldPath (strings_of_buildInfo b))) /\
  (forall (graphs : list (string * Graph))
          (buildInfos : list (string * BuildInfo)),
     exists sf',
       (patch_files oldPath newPath graphs buildInfos (Some sf)).2 = Some sf' /\
       NoDup sf' /\ sf ⊆ sf' /\
       (forall s, s ∈ strings_of_files graphs buildInfos ->
                  startsWith s (workPathUri oldPath) = true ->
                  relative_of oldPath s ∈ sf') /\
       (forall x, x ∈ sf' ->
                  x ∈ sf \/
                  x ∈ rels_of oldPath (strings_of_files graphs buildInfos))).
Proof.
  intros Hsf.
  assert (forall ss : list string,
    NoDup (add_all (rels_of oldPath ss) sf) /\
    sf ⊆ add_all (rels_of oldPath ss) sf /\
    (forall s, s ∈ ss -> startsWith s (workPathUri oldPath) = true ->
               relative_of oldPath s ∈ add_all (rels_of oldPath ss) sf) /\
    (forall x, x ∈ add_all (rels_of oldPath ss) sf ->
               x ∈ sf \/ x ∈ rels_of oldPath ss)) as Hall.
  { intros ss. split_and!.
    - by apply add_all_NoDup.
    - intros x Hx. apply elem_of_add_all. by left.
    - intros s Hs Hm. apply elem_of_add_all. right.
      apply elem_of_rels_of. by exists s.
    - intros x Hx. by apply elem_of_add_all in Hx. }
  split_and!.
  - intros graph. rewrite patch_graph_eq. cbn zeta. cbn [gr_sourceFiles].
    eexists. split; [reflexivity | apply Hall].
  - intros b. destruct (patch_buildInfo_acc oldPath newPath b (Some sf)) as [-> _].
    eexists. split; [reflexivity | apply Hall].
  - intros graphs buildInfos.
    destruct (patch_files_spec oldPath newPath graphs buildInfos (Some sf))
      as [-> _].
    eexists. split; [reflexivity | apply Hall].
Qed.

Lemma discovery_complete_witness :
  exists sf',
    br_sourceFiles
      (patch_buildInfo "/build" "/var/task"
         {| program :=
              {| fileNames := Some [JStr "file:///build/api/index.ts"];
                 fileInfos := [("file:///build/api/index.ts", JNull)];
                 referencedMap :=
                   [("file:///build/api/index.ts", [JStr "file:///build/api/dep.ts"])];
                 exportedModulesMap := [];
                 semanticDiagnosticsPerFile := None |};
            version := "4.4.2" |}
         (Some ["api/index.ts"])) = Some sf' /\
    NoDup sf' /\ "api/dep.ts" ∈ sf'.
Proof.
  assert (NoDup ["api/index.ts"]) as Hnd by (apply NoDup_singleton).
  destruct (proj1 (proj2 (discovery_complete "/build" "/var/task" ["api/index.ts"] Hnd))
    {| program :=
         {| fileNames := Some [JStr "file:///build/api/index.ts"];
            fileInfos := [("file:///build/api/index.ts", JNull)];
            referencedMap :=
              [("file:///build/api/index.ts", [JStr "file:///build/api/dep.ts"])];
            exportedModulesMap := [];
            semanticDiagnosticsPerFile := None |};
       version := "4.4.2" |}) as (sf' & E & Hnd' & _ & Hin & _).
  exists sf'. split_and!; [done | done |].
  apply (Hin "file:///build/api/dep.ts"); [|reflexivity].
  vm_compute. apply list_elem_of_In. simpl. tauto.
Defined.

(** ** Matching is a plain prefix test *)

Lemma relative_of_prefix_char (oldPath : string) (c : Ascii.ascii) (s : string) :
  relative_of oldPath (workPathUri oldPath +:+ String c s) = s.
Proof.
  unfold relative_of. by rewrite substring_from_add, substring_from_app.
Qed.

Lemma relocate_string_prefix_char (oldPath newPath : string)
    (c : Ascii.ascii) (s : string) :
  relocate_string oldPath newPath (workPathUri oldPath +:+ String c s)
  = "file://" +:+ newPath +:+ "/" +:+ s.
Proof.
  unfold relocate_string.
  by rewrite startsWith_app, relative_of_prefix_char.
Qed.


(** ** Keys after the pass *)

Section Keys.
Variables oldPath newPath : string.

Lemma rekey_keys {V : Type} (m : list (string * V)) (k x : string) (v : V) :
  x ∈ obj_keys (rekey oldPath newPath m k v) <->
  if startsWith k (workPathUri oldPath)
  then x <> k /\
       (x = updated_of newPath (relative_of oldPath k) \/ x ∈ obj_keys m)
  else x ∈ obj_keys m.
Proof.
  unfold rekey. destruct (startsWith k _); [|done].
  by rewrite elem_of_keys_delete, elem_of_keys_set.
Qed.


Lemma patch_fileInfos_map (ks : list string) (m : list (string * jsval)) (a : Acc) :
  (foldl (rekey_fileInfo oldPath newPath) (m, a) ks).1
  = foldl (fun mp k => rekey oldPath newPath mp k
                         (default JUndefined (obj_get k mp))) m ks.
Proof.
  revert m a. induction ks as [|k ks IH]; intros m a; [done|].
  cbn [foldl]. by rewrite rekey_fileInfo_eq, IH.
Qed.


Lemma forallb_elem {A : Type} (f : A -> bool) (l : list A) (x : A) :
  forallb f l = true -> x ∈ l -> f x = true.
Proof.
  intros H Hx. apply list_elem_of_In in Hx.
  by apply (proj1 (forallb_forall f l) H).
Qed.



End Keys.

(** The document after the pass, collection by collection. *)
Lemma patch_buildInfo_program (oldPath newPath : string) (b : BuildInfo)
    (sf : option jsset) :
  exists a1 a2 : Acc,
    br_buildInfo (patch_buildInfo oldPath newPath b sf)
    = {| program :=
           {| fileNames := relocate_array oldPath newPath <$> fileNames (program b);
              fileInfos :=
                (patch_fileInfos oldPath newPath (fileInfos (program b))
                   (mkAcc sf false)).1;
              referencedMap :=
                (patch_refMap oldPath newPath (referencedMap (program b)) a1).1;
              exportedModulesMap :=
                (patch_refMap oldPath newPath (exportedModulesMap (program b)) a2).1;
              semanticDiagnosticsPerFile :=
                relocate_array oldPath newPath
                <$> semanticDiagnosticsPerFile (program b) |};
         version := version b |}.
Proof.
  unfold patch_buildInfo.
  destruct (patch_fileInfos _ _ _ _) as [fi a1].
  exists a1.
  destruct (patch_refMap _ _ (referencedMap _) _) as [rm a2].
  exists a2.
  destruct (patch_refMap _ _ (exportedModulesMap _) _) as [em a3].
  by rewrite !patch_optional_eq.
Qed.




(** ** Where the entries of a map come from *)

Section Provenance.
Variables oldPath newPath : string.


Lemma relocate_string_rekey {V : Type} (mp : list (string * V))
    (k : string) (v : V) :
  rekey oldPath newPath mp k v
  = if startsWith k (workPathUri oldPath)
    then obj_delete k (obj_set (relocate_string oldPath newPath k) v mp)
    else mp.
Proof. unfold rekey, relocate_string. by destruct (startsWith k _). Qed.

Lemma foldl_rekey_provenance {V : Type} (es todo mp : list (string * V)) :
  (forall e, e ∈ todo -> e ∈ es) ->
  (forall k' r, (k', r) ∈ mp ->
     exists k, (k, r) ∈ es /\
       (k' = relocate_string oldPath newPath k \/ (k' = k /\ (k, r) ∈ todo))) ->
  forall k' r,
    (k', r) ∈ foldl (fun mp e => rekey oldPath newPath mp e.1 e.2) mp todo ->
    exists k, (k, r) ∈ es /\ k' = relocate_string oldPath newPath k.
Proof.
  revert mp. induction todo as [|[ke re] todo IH]; intros mp Hsub Inv k' r.
  { cbn [foldl]. intros H. destruct (Inv _ _ H) as (k & Hk & [?|[_ Hin]]).
    - by exists k.
    - by apply elem_of_nil in Hin. }
  cbn [foldl fst snd].
  apply IH; [by intros e He; apply Hsub; right|]. clear k' r. intros k' r.
  assert ((ke, re) ∈ es) as Hes by (apply Hsub; left).
  rewrite relocate_string_rekey.
  destruct (startsWith ke (workPathUri oldPath)) eqn:Ee.
  - rewrite elem_of_obj_delete. intros [Hne H].
    apply elem_of_obj_set in H as [[-> ->]|H].
    + exists ke. split; [done | by left].
    + destruct (Inv _ _ H) as (k & Hk & [?|[-> Hin]]).
      * exists k. split; [done | by left].
      * apply elem_of_cons in Hin as [[= ? ?]|Hin]; [done|].
        exists k. split; [done | by right].
  - intros H. destruct (Inv _ _ H) as (k & Hk & [?|[-> Hin]]).
    + exists k. split; [done | by left].
    + apply elem_of_cons in Hin as [[= -> ->]|Hin].
      * exists ke. split; [done|]. left.
        unfold relocate_string. by rewrite Ee.
      * exists k. split; [done | by right].
Qed.

Lemma elem_of_alloc (m : list (string * list jsval)) (k : string) (r : nat) :
  (k, r) ∈ (alloc m).1 -> exists l, m !! r = Some (k, l).
Proof.
  unfold alloc. cbn [fst]. intros H.
  apply elem_of_lookup_imap in H as (i & [k0 l] & [= -> ->] & Hi).
  by exists l.
Qed.

(** Every entry of a map after the pass is an entry of the map before
    it, its key rewritten and its array rewritten in place. *)
Lemma patch_refMap_provenance (m : list (string * list jsval)) (a : Acc)
    (k' : string) (l' : list jsval) :
  (k', l') ∈ (patch_refMap oldPath newPath m a).1 ->
  exists k l, (k, l) ∈ m /\ k' = relocate_string oldPath newPath k /\
              l' = relocate_array oldPath newPath l.
Proof.
  unfold patch_refMap. cbn [fst]. rewrite run_entries_heap, run_entries_map.
  unfold deref. intros H.
  apply list_elem_of_fmap in H as ([k0 r] & [= -> ->] & H). cbn [fst snd].
  apply (foldl_rekey_provenance (alloc m).1) in H as (k & Hk & ->).
  - apply elem_of_alloc in Hk as (l & Hl). exists k, l. split_and!.
    + by apply list_elem_of_lookup_2 in Hl.
    + done.
    + rewrite list_lookup_fmap, list_lookup_fmap, Hl. done.
  - done.
  - intros k1 r1 H1. exists k1. split; [done | by right].
Qed.

End Provenance.



(** ** To the new root and back *)

Section RoundTrip.
Variables a b : string.

Lemma round_trips_string (s : string) :
  round_trips a b s = true ->
  relocate_string b a (relocate_string a b s) = s.
Proof.
  unfold round_trips, relocate_string at 2.
  destruct (startsWith s (workPathUri a)) eqn:Ea.
  - intros H. apply bool_decide_eq_true in H.
    change (updated_of b (relative_of a s))
      with (workPathUri b +:+ String "/"%char (relative_of a s)).
    by rewrite relocate_string_prefix_char.
  - intros H. apply negb_true_iff in H. unfold relocate_string. by rewrite H.
Qed.

Lemma round_trips_array (l : list jsval) :
  forallb (round_trips a b) (strings_of l) = true ->
  relocate_array b a (relocate_array a b l) = l.
Proof.
  unfold relocate_array. induction l as [|e l IH]; [done|].
  intros H. cbn [fmap list_fmap].
  destruct e; cbn in H |- *; try (f_equal; by apply IH).
  apply andb_true_iff in H as [Hs H].
  rewrite round_trips_string by done. f_equal. by apply IH.
Qed.

End RoundTrip.

(** ** A pass without clash of keys *)

Section ObjPerm.
Context {V : Type}.
Implicit Types (m : list (string * V)) (k : string) (v : V).

Lemma obj_set_fresh k v m : k ∉ obj_keys m -> obj_set k v m = m ++ [(k, v)].
Proof.
  unfold obj_keys. induction m as [|[k' v'] m IH]; [done|].
  cbn [fmap list_fmap fst]. rewrite not_elem_of_cons. intros [Hne Hk].
  simpl. destruct (decide (k = k')); [done|]. by rewrite IH.
Qed.

Lemma obj_delete_app k m1 m2 :
  obj_delete k (m1 ++ m2) = obj_delete k m1 ++ obj_delete k m2.
Proof.
  induction m1 as [|[k' v'] m1 IH]; [done|]. simpl.
  destruct (decide (k = k')); by rewrite IH.
Qed.

Lemma obj_delete_notin k m : k ∉ obj_keys m -> obj_delete k m = m.
Proof.
  unfold obj_keys. induction m as [|[k' v'] m IH]; [done|].
  cbn [fmap list_fmap fst]. rewrite not_elem_of_cons. intros [Hne Hk].
  simpl. destruct (decide (k = k')); [done|]. by rewrite IH.
Qed.

Lemma obj_delete_perm k m m' :
  m ≡ₚ m' -> obj_delete k m ≡ₚ obj_delete k m'.
Proof.
  induction 1 as [|[k1 v1] m m' _ IH|[k1 v1] [k2 v2] m|m1 m2 m3 _ IH1 _ IH2];
    simpl.
  - done.
  - destruct (decide (k = k1)); [done | by constructor].
  - destruct (decide (k = k1)), (decide (k = k2)); try done. apply perm_swap.
  - by etransitivity.
Qed.

Lemma obj_keys_perm m m' : m ≡ₚ m' -> obj_keys m ≡ₚ obj_keys m'.
Proof. apply fmap_Permutation. Qed.

Lemma obj_keys_app m1 m2 : obj_keys (m1 ++ m2) = obj_keys m1 ++ obj_keys m2.
Proof. apply fmap_app. Qed.

Lemma obj_keys_cons k v m : obj_keys ((k, v) :: m) = k :: obj_keys m.
Proof. done. Qed.

End ObjPerm.

Section CleanPass.
Variables a b : string.
Context {V : Type}.

Local Abbreviation f := (relocate_string a b).

Lemma relocate_keys_keys (m : list (string * V)) :
  obj_keys (relocate_keys a b m) = f <$> obj_keys m.
Proof.
  unfold obj_keys, relocate_keys. rewrite <- !list_fmap_compose. done.
Qed.

Lemma foldl_rekey_perm (val : list (string * V) -> string * V -> V)
    (todo rest mp : list (string * V)) :
  (forall mp k v, NoDup (obj_keys mp) -> (k, v) ∈ mp -> val mp (k, v) = v) ->
  mp ≡ₚ todo ++ rest -> NoDup (obj_keys mp) ->
  (forall k, k ∈ obj_keys todo -> startsWith k (workPathUri a) = true ->
             (f k ∉ obj_keys todo) /\ (f k ∉ obj_keys rest)) ->
  (forall k1 k2, k1 ∈ obj_keys todo -> k2 ∈ obj_keys todo ->
                 f k1 = f k2 -> k1 = k2) ->
  foldl (fun mp e => rekey a b mp e.1 (val mp e)) mp todo
  ≡ₚ relocate_keys a b todo ++ rest.
Proof.
  intros Hval. revert rest mp.
  induction todo as [|[k v] todo IH]; intros rest mp Hmp Hnd Hfresh Hinj;
    [done|].
  cbn [foldl fst snd].
  assert (NoDup (k :: obj_keys todo ++ obj_keys rest)) as Hnd'.
  { rewrite (obj_keys_perm _ _ Hmp) in Hnd. by rewrite obj_keys_app in Hnd. }
  apply NoDup_cons in Hnd' as [Hk Hnd'].
  rewrite not_elem_of_app in Hk. destruct Hk as [Hk1 Hk2].
  assert (forall k2, k2 ∈ obj_keys todo -> k2 <> k) as Hne
    by (intros k2 H2 ->; done).
  rewrite relocate_string_rekey. cbn [relocate_keys fmap list_fmap fst snd].
  destruct (startsWith k (workPathUri a)) eqn:Ek.
  - destruct (Hfresh k) as [Hf1 Hf2];
      [rewrite obj_keys_cons; by left | done |].
    rewrite obj_keys_cons, not_elem_of_cons in Hf1. destruct Hf1 as [Hfk Hf1].
    assert ((k, v) ∈ mp) as Hin by (rewrite Hmp; by left).
    rewrite (Hval mp k v Hnd Hin).
    rewrite obj_set_fresh.
    2:{ rewrite (obj_keys_perm _ _ Hmp), obj_keys_app, obj_keys_cons.
        rewrite not_elem_of_app, not_elem_of_cons. done. }
    rewrite obj_delete_app. simpl.
    destruct (decide (k = f k)) as [E|_]; [by destruct Hfk|].
    assert (obj_delete k mp ≡ₚ todo ++ rest) as Hdel.
    { rewrite (obj_delete_perm _ _ _ Hmp). simpl.
      destruct (decide (k = k)); [|done].
      apply reflexive_eq, obj_delete_notin.
      rewrite obj_keys_app, not_elem_of_app. done. }
    etransitivity; [apply (IH ((f k, v) :: rest))|].
    + rewrite Hdel, <- (assoc_L (++)). apply Permutation_app_head.
      symmetry. apply Permutation_cons_append.
    + rewrite obj_keys_app, (obj_keys_perm _ _ Hdel), obj_keys_app.
      apply NoDup_app. split_and!; [done | | apply NoDup_singleton].
      intros x Hx Hx'. apply list_elem_of_singleton in Hx'. subst x.
      apply elem_of_app in Hx as [?|?]; done.
    + intros k2 H2 Hm2.
      destruct (Hfresh k2) as [Hg1 Hg2];
        [rewrite obj_keys_cons; by right | done |].
      rewrite obj_keys_cons, not_elem_of_cons in Hg1. destruct Hg1 as [? ?].
      rewrite obj_keys_cons, not_elem_of_cons.
      split; [done|]. split; [|done].
      intros E. apply (Hne k2 H2).
      apply Hinj; rewrite ?obj_keys_cons; [by right | by left | done].
    + intros k1 k2 H1 H2. apply Hinj; rewrite obj_keys_cons; by right.
    + symmetry. apply Permutation_middle.
  - assert (f k = k) as -> by (unfold relocate_string; by rewrite Ek).
    etransitivity; [apply (IH ((k, v) :: rest))|].
    + rewrite Hmp. apply Permutation_middle.
    + done.
    + intros k2 H2 Hm2.
      destruct (Hfresh k2) as [Hg1 Hg2];
        [rewrite obj_keys_cons; by right | done |].
      rewrite obj_keys_cons, not_elem_of_cons in Hg1. destruct Hg1 as [? ?].
      rewrite obj_keys_cons, not_elem_of_cons. done.
    + intros k1 k2 H1 H2. apply Hinj; rewrite obj_keys_cons; by right.
    + symmetry. apply Permutation_middle.
Qed.

End CleanPass.

Section MapRoundTrip.
Variables a b : string.

Local Abbreviation f := (relocate_string a b).
Local Abbreviation g := (relocate_string b a).

Lemma round_trips_inj (ks : list string) (k1 k2 : string) :
  forallb (round_trips a b) ks = true ->
  k1 ∈ ks -> k2 ∈ ks -> f k1 = f k2 -> k1 = k2.
Proof.
  intros H H1 H2 E.
  rewrite <- (round_trips_string a b k1), <- (round_trips_string a b k2), E;
    [done | by eapply forallb_elem | by eapply forallb_elem].
Qed.

Lemma no_clash_elem (ks : list string) (k : string) :
  no_clash a b ks = true -> k ∈ ks ->
  startsWith k (workPathUri a) = true -> f k ∉ ks.
Proof.
  intros H Hk Hm. unfold no_clash in H.
  pose proof (forallb_elem _ _ _ H Hk) as Hc. cbn beta in Hc.
  rewrite Hm in Hc. cbn in Hc. apply negb_true_iff in Hc.
  by apply bool_decide_eq_false in Hc.
Qed.

(** The keys after a clash-free pass can be taken back. *)
Lemma keys_back (ks ks' : list string) :
  NoDup ks -> forallb (round_trips a b) ks = true ->
  no_clash a b ks = true -> ks' ≡ₚ f <$> ks ->
  NoDup ks' /\
  (forall k', k' ∈ ks' -> startsWith k' (workPathUri b) = true -> g k' ∉ ks') /\
  (forall k1 k2, k1 ∈ ks' -> k2 ∈ ks' -> g k1 = g k2 -> k1 = k2).
Proof.
  intros Hnd Hrt Hnc Hp. split_and!.
  - rewrite Hp. apply NoDup_fmap_2_strong; [|done].
    intros ? ?. by apply round_trips_inj.
  - intros k' Hk' Hm. rewrite Hp in Hk' |- *.
    apply list_elem_of_fmap in Hk' as (k & -> & Hk).
    pose proof (forallb_elem _ _ _ Hrt Hk) as Hrk.
    rewrite (round_trips_string a b k Hrk).
    intros Hin. apply list_elem_of_fmap in Hin as (k2 & E & Hk2).
    unfold round_trips in Hrk.
    destruct (startsWith k (workPathUri a)) eqn:Ek.
    + destruct (startsWith k2 (workPathUri a)) eqn:Ek2.
      * apply (no_clash_elem ks k2); [done..|]. by rewrite <- E.
      * unfold relocate_string in E at 1. rewrite Ek2 in E. congruence.
    + apply negb_true_iff in Hrk.
      unfold relocate_string in Hm. rewrite Ek in Hm. congruence.
  - intros k1 k2 H1 H2 E. rewrite Hp in H1, H2.
    apply list_elem_of_fmap in H1 as (x1 & -> & Hx1).
    apply list_elem_of_fmap in H2 as (x2 & -> & Hx2).
    rewrite !round_trips_string in E by (by eapply forallb_elem).
    by subst.
Qed.

End MapRoundTrip.

Section PassPerm.
Variables a b : string.

Lemma patch_fileInfos_perm (m : list (string * jsval)) (acc : Acc) :
  NoDup (obj_keys m) ->
  (forall k, k ∈ obj_keys m -> startsWith k (workPathUri a) = true ->
             relocate_string a b k ∉ obj_keys m) ->
  (forall k1 k2, k1 ∈ obj_keys m -> k2 ∈ obj_keys m ->
                 relocate_string a b k1 = relocate_string a b k2 -> k1 = k2) ->
  (patch_fileInfos a b m acc).1 ≡ₚ relocate_keys a b m.
Proof.
  intros Hnd Hfresh Hinj. unfold patch_fileInfos.
  rewrite patch_fileInfos_map. unfold obj_keys at 1. rewrite foldl_fmap.
  rewrite <- (app_nil_r (relocate_keys a b m)).
  apply (foldl_rekey_perm a b
           (fun mp e => default JUndefined (obj_get e.1 mp))).
  - intros mp k v Hn Hin. cbn [fst]. by rewrite (obj_get_NoDup k v mp).
  - by rewrite app_nil_r.
  - done.
  - intros k Hk Hm. split; [by apply Hfresh | apply not_elem_of_nil].
  - done.
Qed.

Lemma deref_relocated (pre : list (list jsval)) (m : list (string * list jsval)) :
  deref (pre ++ (relocate_array a b <$> m.*2))
    (relocate_keys a b (imap (fun i kv => (kv.1, length pre + i)) m))
  = relocate_map a b m.
Proof.
  unfold deref, relocate_keys, relocate_map. revert pre.
  induction m as [|[k l] m IH]; intros pre; [done|].
  cbn [imap fmap list_fmap fst snd].
  rewrite list_lookup_middle by lia. cbn [default]. f_equal.
  specialize (IH (pre ++ [relocate_array a b l])).
  rewrite <- (assoc_L (++)) in IH.
  rewrite length_app in IH. cbn [app length] in IH.
  etransitivity; [|exact IH]. do 2 f_equal.
  apply imap_ext. intros; simpl; f_equal; lia.
Qed.

Lemma deref_relocated_alloc (m : list (string * list jsval)) :
  deref (relocate_array a b <$> m.*2) (relocate_keys a b (alloc m).1)
  = relocate_map a b m.
Proof. apply (deref_relocated [] m). Qed.

Lemma patch_refMap_perm (m : list (string * list jsval)) (acc : Acc) :
  NoDup (obj_keys m) ->
  (forall k, k ∈ obj_keys m -> startsWith k (workPathUri a) = true ->
             relocate_string a b k ∉ obj_keys m) ->
  (forall k1 k2, k1 ∈ obj_keys m -> k2 ∈ obj_keys m ->
                 relocate_string a b k1 = relocate_string a b k2 -> k1 = k2) ->
  (patch_refMap a b m acc).1 ≡ₚ relocate_map a b m.
Proof.
  intros Hnd Hfresh Hinj. unfold patch_refMap. cbn [fst].
  rewrite run_entries_heap, run_entries_map.
  assert (obj_keys (alloc m).1 = obj_keys m) as Hkeys by apply alloc_keys.
  rewrite <- (deref_relocated_alloc m). unfold deref at 1 2.
  apply fmap_Permutation.
  rewrite <- (app_nil_r (relocate_keys a b _)).
  apply (foldl_rekey_perm a b (fun _ e => e.2)).
  - done.
  - by rewrite app_nil_r.
  - by rewrite Hkeys.
  - rewrite Hkeys. intros k Hk Hm.
    split; [by apply Hfresh | apply not_elem_of_nil].
  - by rewrite Hkeys.
Qed.

End PassPerm.

Section BackAndForth.
Variables a b : string.

Lemma relocate_map_keys (m : list (string * list jsval)) :
  obj_keys (relocate_map a b m) = relocate_string a b <$> obj_keys m.
Proof.
  unfold obj_keys, relocate_map. rewrite <- !list_fmap_compose. done.
Qed.

Lemma relocate_keys_back {V : Type} (m : list (string * V)) :
  forallb (round_trips a b) (obj_keys m) = true ->
  relocate_keys b a (relocate_keys a b m) = m.
Proof.
  unfold relocate_keys, obj_keys. induction m as [|[k v] m IH]; [done|].
  cbn [fmap list_fmap forallb fst snd]. intros H.
  apply andb_true_iff in H as [Hk H].
  by rewrite round_trips_string, IH.
Qed.

Lemma relocate_map_back (m : list (string * list jsval)) :
  forallb (round_trips a b) (strings_of_map m) = true ->
  relocate_map b a (relocate_map a b m) = m.
Proof.
  unfold relocate_map, strings_of_map. induction m as [|[k l] m IH]; [done|].
  cbn [fmap list_fmap flat_map fst snd]. rewrite !forallb_app.
  cbn [forallb]. intros H.
  apply andb_true_iff in H as [H Hm].
  apply andb_true_iff in H as [Hl Hk].
  apply andb_true_iff in Hk as [Hk _].
  by rewrite round_trips_string, round_trips_array, IH.
Qed.

Lemma strings_of_map_round_trips (m : list (string * list jsval)) :
  forallb (round_trips a b) (strings_of_map m) = true ->
  forallb (round_trips a b) (obj_keys m) = true.
Proof.
  unfold strings_of_map, obj_keys. induction m as [|[k l] m IH]; [done|].
  cbn [fmap list_fmap flat_map fst snd]. rewrite !forallb_app.
  cbn [forallb]. intros H.
  apply andb_true_iff in H as [H Hm].
  apply andb_true_iff in H as [Hl Hk].
  apply andb_true_iff in Hk as [Hk _].
  by rewrite Hk, IH.
Qed.

Lemma fileInfos_back_and_forth (m : list (string * jsval)) (acc acc' : Acc) :
  NoDup (obj_keys m) ->
  forallb (round_trips a b) (obj_keys m) = true ->
  no_clash a b (obj_keys m) = true ->
  (patch_fileInfos b a (patch_fileInfos a b m acc).1 acc').1 ≡ₚ m.
Proof.
  intros Hnd Hrt Hnc.
  assert ((patch_fileInfos a b m acc).1 ≡ₚ relocate_keys a b m) as H1.
  { apply patch_fileInfos_perm; [done | |].
    - intros k Hk Hm. by apply no_clash_elem.
    - intros k1 k2. by apply round_trips_inj. }
  destruct (keys_back a b (obj_keys m) (obj_keys (patch_fileInfos a b m acc).1))
    as (Hnd' & Hfresh' & Hinj'); [done.. | |].
  { by rewrite (obj_keys_perm _ _ H1), relocate_keys_keys. }
  rewrite patch_fileInfos_perm by done.
  unfold relocate_keys at 1. rewrite H1.
  apply reflexive_eq. by apply relocate_keys_back.
Qed.

Lemma refMap_back_and_forth (m : list (string * list jsval)) (acc acc' : Acc) :
  NoDup (obj_keys m) ->
  forallb (round_trips a b) (strings_of_map m) = true ->
  no_clash a b (obj_keys m) = true ->
  (patch_refMap b a (patch_refMap a b m acc).1 acc').1 ≡ₚ m.
Proof.
  intros Hnd Hrt Hnc.
  pose proof (strings_of_map_round_trips m Hrt) as Hrk.
  assert ((patch_refMap a b m acc).1 ≡ₚ relocate_map a b m) as H1.
  { apply patch_refMap_perm; [done | |].
    - intros k Hk Hm. by apply no_clash_elem.
    - intros k1 k2. by apply round_trips_inj. }
  destruct (keys_back a b (obj_keys m) (obj_keys (patch_refMap a b m acc).1))
    as (Hnd' & Hfresh' & Hinj'); [done.. | |].
  { by rewrite (obj_keys_perm _ _ H1), relocate_map_keys. }
  rewrite patch_refMap_perm by done.
  unfold relocate_map at 1. rewrite H1.
  apply reflexive_eq. by apply relocate_map_back.
Qed.

End BackAndForth.

(** C5, as the code has it: going from root [a] to root [b] and back
    restores a document in which every string at a place the pass looks at
    either continues the URI of [a] with a [/] or begins with the URI of
    neither root, and in which no key is rewritten to a key its map
    already has.  [deps], [fileNames] and [semanticDiagnosticsPerFile] come
    back as they were, element by element; [fileInfos], [referencedMap]
    and [exportedModulesMap] come back with the same keys and, under each
    key, the same value (for the two maps the same list), the order in
    which the keys are enumerated apart. *)
Theorem back_and_forth_restores (a b : string) :
  (forall (graph : Graph) (sf sf' : option jsset),
     forallb (round_trips a b) (strings_of (deps graph)) = true ->
     gr_graph (patch_graph b a (gr_graph (patch_graph a b graph sf)) sf')
     = graph) /\
  (forall (doc : BuildInfo) (sf sf' : option jsset),
     distinct_keys doc -> round_trip_safe a b doc = true ->
     let p := program doc in
     let p'' := program (br_buildInfo
                  (patch_buildInfo b a
                     (br_buildInfo (patch_buildInfo a b doc sf)) sf')) in
     fileNames p'' = fileNames p /\
     semanticDiagnosticsPerFile p'' = semanticDiagnosticsPerFile p /\
     fileInfos p'' ≡ₚ fileInfos p /\
     referencedMap p'' ≡ₚ referencedMap p /\
     exportedModulesMap p'' ≡ₚ exportedModulesMap p).
Proof.
  split.
  - intros graph sf sf' H. rewrite !patch_graph_eq. cbn [gr_graph deps version_hash].
    rewrite round_trips_array by done. by destruct graph.
  - intros doc sf sf' (Hfi & Hrm & Hem) Hsafe. cbn zeta.
    unfold round_trip_safe in Hsafe.
    apply andb_true_iff in Hsafe as [Hsafe Hc3].
    apply andb_true_iff in Hsafe as [Hsafe Hc2].
    apply andb_true_iff in Hsafe as [Hrt Hc1].
    unfold strings_of_buildInfo in Hrt. rewrite !forallb_app in Hrt.
    apply andb_true_iff in Hrt as [Hr1 Hrt].
    apply andb_true_iff in Hrt as [Hr2 Hrt].
    apply andb_true_iff in Hrt as [Hr3 Hrt].
    apply andb_true_iff in Hrt as [Hr4 Hr5].
    destruct (patch_buildInfo_program a b doc sf) as (a1 & a2 & ->).
    destruct (patch_buildInfo_program b a
      {| program :=
           {| fileNames := relocate_array a b <$> fileNames (program doc);
              fileInfos := (patch_fileInfos a b (fileInfos (program doc))
                              (mkAcc sf false)).1;
              referencedMap := (patch_refMap a b (referencedMap (program doc)) a1).1;
              exportedModulesMap :=
                (patch_refMap a b (exportedModulesMap (program doc)) a2).1;
              semanticDiagnosticsPerFile :=
                relocate_array a b <$> semanticDiagnosticsPerFile (program doc) |};
         version := version doc |} sf') as (a1' & a2' & ->).
    cbn [program fileNames fileInfos referencedMap exportedModulesMap
         semanticDiagnosticsPerFile].
    split_and!.
    + destruct (fileNames (program doc)) as [l|]; [|done]. cbn in Hr4 |- *.
      by rewrite round_trips_array.
    + destruct (semanticDiagnosticsPerFile (program doc)) as [l|]; [|done].
      cbn in Hr5 |- *. by rewrite round_trips_array.
    + by apply fileInfos_back_and_forth.
    + by apply refMap_back_and_forth.
    + by apply refMap_back_and_forth.
Qed.

Lemma back_and_forth_restores_witness :
  let doc :=
    {| program :=
         {| fileNames := Some [JStr "file:///build/api/index.ts"; JNum 0];
            fileInfos := [("file:///build/api/index.ts", JNull);
                          ("https://deno.land/x/a.ts", JNull)];
            referencedMap :=
              [("file:///build/api/index.ts",
                [JStr "file:///build/api/dep.ts"; JStr "https://deno.land/x/a.ts"])];
            exportedModulesMap := [];
            semanticDiagnosticsPerFile := None |};
       version := "4.4.2" |} in
  let p'' := program (br_buildInfo
               (patch_buildInfo "/var/task" "/build"
                  (br_buildInfo (patch_buildInfo "/build" "/var/task" doc None))
                  None)) in
  fileNames p'' = fileNames (program doc) /\
  semanticDiagnosticsPerFile p'' = semanticDiagnosticsPerFile (program doc) /\
  fileInfos p'' ≡ₚ fileInfos (program doc) /\
  referencedMap p'' ≡ₚ referencedMap (program doc) /\
  exportedModulesMap p'' ≡ₚ exportedModulesMap (program doc).
Proof.
  intros doc.
  apply (proj2 (back_and_forth_restores "/build" "/var/task") doc None None).
  - split_and!; apply (bool_decide_unpack _); vm_compute; exact I.
  - reflexivity.
Defined.

(** C5 fails as stated for a string that is under the new root before the
    pass: going from [/build] to [/var/task] leaves
    [file:///var/task/lib.ts] alone, and the way back takes it to
    [file:///build/lib.ts].  The builder meets such strings: it calls
    [moveCacheFiles] twice with the same new root. *)
Lemma back_and_forth_moves_string_under_new_root :
  let graph := {| deps := [JStr "file:///var/task/lib.ts"];
                  version_hash := "abc" |} in
  let there := gr_graph (patch_graph "/build" "/var/task" graph None) in
  let back := gr_graph (patch_graph "/var/task" "/build" there None) in
  there = graph /\
  deps back = [JStr "file:///build/lib.ts"] /\
  deps back <> deps graph.
Proof. cbn zeta. split_and!; [reflexivity | reflexivity | discriminate]. Qed.

(** ** [deleteEmptyDirs] and [waitForPortFile] *)

Import Cleanup PortFile.

Lemma rmdir_Ok_not_root (dir : path) (t t' : tree) :
  rmdir dir t = Ok t' -> dir <> [].
Proof.
  unfold rmdir. destruct (t !! dir) as [[]|]; [done | | done].
  destruct (decide (dir = [])); done.
Qed.

Lemma dirname_length (dir : path) : dir <> [] -> S (length (dirname dir)) = length dir.
Proof.
  intros H. unfold dirname. rewrite length_take.
  destruct dir; [done|]. simpl. lia.
Qed.

Lemma deleteEmptyDirs_fuel_total (n : nat) (dir : path) (t : tree) :
  length dir < n -> is_Some (deleteEmptyDirs_fuel n dir t).
Proof.
  revert dir t. induction n as [|n IH]; intros dir t Hn; [lia|]. simpl.
  destruct (readdir dir t) as [files|e]; [|by eexists].
  destruct (decide (length files ≠ 0)); [by eexists|].
  destruct (rmdir dir t) as [t'|e] eqn:E; [|by eexists].
  apply IH. apply rmdir_Ok_not_root, dirname_length in E. lia.
Qed.

Lemma deleteEmptyDirs_fuel_irrelevant (n n' : nat) (dir : path) (t : tree) :
  length dir < n -> length dir < n' ->
  deleteEmptyDirs_fuel n dir t = deleteEmptyDirs_fuel n' dir t.
Proof.
  revert n' dir t. induction n as [|n IH]; intros n' dir t Hn Hn'; [lia|].
  destruct n' as [|n']; [lia|]. simpl.
  destruct (readdir dir t) as [files|e]; [|done].
  destruct (decide (length files ≠ 0)); [done|].
  destruct (rmdir dir t) as [t'|e] eqn:E; [|done].
  apply rmdir_Ok_not_root, dirname_length in E. apply IH; lia.
Qed.

Lemma deleteEmptyDirs_unfold (dir : path) (t : tree) :
  deleteEmptyDirs dir t
  = match readdir dir t with
    | Throw e => Some (Throw e)
    | Ok files =>
        if decide (length files ≠ 0) then Some (Ok t)
        else match rmdir dir t with
             | Throw e => Some (Throw e)
             | Ok t' => deleteEmptyDirs (dirname dir) t'
             end
    end.
Proof.
  unfold deleteEmptyDirs at 1. simpl.
  destruct (readdir dir t) as [files|e]; [|done].
  destruct (decide (length files ≠ 0)); [done|].
  destruct (rmdir dir t) as [t'|e] eqn:E; [|done].
  apply rmdir_Ok_not_root, dirname_length in E.
  apply deleteEmptyDirs_fuel_irrelevant; lia.
Qed.

(** C7, as the code has it.  While polling for the port file, a read that
    fails with [ENOENT] is tolerated and the loop polls again; a read that
    fails with any other code throws that error out of the loop; a failure
    to delete the file after it was read is only logged.  [deleteEmptyDirs]
    always comes to an end and tolerates no error: whatever [readdir] or
    [rmdir] throws, [ENOENT] included, it throws. *)
Theorem polling_tolerates_enoent_cleanup_does_not :
  (forall (p : Poll) (rest : list Poll),
     aborted p = false -> read p = Throw ENOENT ->
     waitForPortFile (p :: rest) = waitForPortFile rest) /\
  (forall (p : Poll) (rest : list Poll) (e : errno),
     aborted p = false -> read p = Throw e -> e <> ENOENT ->
     waitForPortFile (p :: rest) = (0, Thrown e)) /\
  (forall (p : Poll) (rest : list Poll) (text : string),
     aborted p = false -> read p = Ok text ->
     (waitForPortFile (p :: rest)).2
     = Returned (Some {| port := Number text |})) /\
  (forall (dir : path) (t : tree), is_Some (deleteEmptyDirs dir t)) /\
  (forall (dir : path) (t : tree) (e : errno),
     readdir dir t = Throw e -> deleteEmptyDirs dir t = Some (Throw e)) /\
  (forall (dir : path) (t : tree) (e : errno),
     readdir dir t = Ok [] -> rmdir dir t = Throw e ->
     deleteEmptyDirs dir t = Some (Throw e)) /\
  (forall (dir : path) (t t' : tree),
     readdir dir t = Ok [] -> rmdir dir t = Ok t' ->
     deleteEmptyDirs dir t = deleteEmptyDirs (dirname dir) t').
Proof.
  split_and!.
  - intros p rest Ha Hr. simpl. rewrite Ha, Hr.
    by destruct (decide (ENOENT ≠ ENOENT)).
  - intros p rest e Ha Hr He. simpl. rewrite Ha, Hr.
    by destruct (decide (e ≠ ENOENT)).
  - intros p rest text Ha Hr. simpl. by rewrite Ha, Hr.
  - intros dir t. apply deleteEmptyDirs_fuel_total. lia.
  - intros dir t e H. by rewrite deleteEmptyDirs_unfold, H.
  - intros dir t e H1 H2. by rewrite deleteEmptyDirs_unfold, H1, H2.
  - intros dir t t' H1 H2. by rewrite deleteEmptyDirs_unfold, H1, H2.
Qed.

Lemma polling_tolerates_enoent_cleanup_does_not_witness :
  waitForPortFile
    [ {| aborted := false; read := Throw ENOENT; unlinked := Ok tt |};
      {| aborted := false; read := Ok "8080"; unlinked := Throw EACCES |} ]
  = (1, Returned (Some {| port := Number "8080" |})).
Proof.
  rewrite (proj1 polling_tolerates_enoent_cleanup_does_not); reflexivity.
Defined.

(** C7 fails as stated for the clean-up: [deleteEmptyDirs] has no handler
    for any error, so on a directory that does not exist the [ENOENT] of
    [readdir] is thrown. *)
Lemma cleanup_throws_enoent :
  let t : tree := {[ [] := Dir ]} in
  readdir ["old"] t = Throw ENOENT /\
  deleteEmptyDirs ["old"] t = Some (Throw ENOENT).
Proof. cbn zeta. split; reflexivity. Qed.

(** ** The runtime loop *)

Import Bootstrap.

Lemma bind_run {A B : Type} (m : M A) (k : A -> M B) (h : handler_ref) :
  (m ≫= k) h
  = match m h with
    | (tr, h', inl e) => (tr, h', inl e)
    | (tr, h', inr x) => let '(tr', h'', r) := k x h' in (tr ++ tr', h'', r)
    end.
Proof. done. Qed.

Lemma turns_app (pre rest : list Invocation) (h : handler_ref) :
  turns (pre ++ rest) h
  = match turns pre h with
    | (tr, h', inl e) => (tr, h', inl e)
    | (tr, h', inr _) => let '(tr', h'', r) := turns rest h' in (tr ++ tr', h'', r)
    end.
Proof.
  revert h. induction pre as [|inv pre IH]; intros h.
  - simpl. by destruct (turns rest h) as [[tr' h''] r].
  - cbn [app turns]. rewrite !bind_run.
    destruct (turn inv h) as [[tr h'] [e|[]]]; [done|].
    rewrite IH. destruct (turns pre h') as [[tr1 h1] [e|[]]]; [done|].
    destruct (turns rest h1) as [[tr2 h2] r]. by rewrite (assoc_L (++)).
Qed.

Lemma loop_turns (script : list Invocation) (h : handler_ref) :
  loop script h
  = match turns script h with
    | (tr, h', inl e) => (tr, h', inl e)
    | (tr, h', inr _) => (tr ++ [FetchNext], h', inr tt)
    end.
Proof.
  revert h. induction script as [|inv script IH]; intros h; [done|].
  cbn [loop turns]. rewrite !bind_run.
  destruct (turn inv h) as [[tr h'] [e|[]]]; [done|].
  rewrite IH. destruct (turns script h') as [[tr1 h1] [e|[]]]; [done|].
  by rewrite (assoc_L (++)).
Qed.

Lemma turn_bad_status (inv : Invocation) (h : handler_ref) :
  next_status inv <> 200%Z ->
  turn inv h = ([FetchNext], h, inl (Error "Unexpected /invocation/next response")).
Proof.
  intros H. unfold turn, nextInvocation. rewrite !bind_run.
  destruct (decide (next_status inv ≠ 200%Z)); [done | tauto].
Qed.

Lemma imports_app (t1 t2 : list action) : imports (t1 ++ t2) = imports t1 + imports t2.
Proof. unfold imports. by rewrite filter_app, length_app. Qed.

Lemma calls_app (t1 t2 : list action) : calls (t1 ++ t2) = calls t1 + calls t2.
Proof. unfold calls. by rewrite filter_app, length_app. Qed.


(** C8: when the long-poll of an invocation is answered with a status
    other than 200, the loop throws out of [processEvents] right after that
    poll: the error is logged and the process exits with code 1.  Nothing
    is imported and the handler is not called for that invocation or any
    later one; when it is the first invocation, nothing was imported at
    all. *)
Theorem bad_poll_status_is_fatal
    (pre : list Invocation) (inv : Invocation) (post : list Invocation)
    (tr : list action) (h : handler_ref) :
  turns pre HNull = (tr, h, inr tt) ->
  next_status inv <> 200%Z ->
  exists err,
    processEvents (pre ++ inv :: post) = (tr ++ [FetchNext], h, inl err) /\
    runtime (pre ++ inv :: post)
    = tr ++ [FetchNext; ConsoleError err; Exit 1] /\
    imports (runtime (pre ++ inv :: post)) = imports tr /\
    calls (runtime (pre ++ inv :: post)) = calls tr /\
    (pre = [] -> imports (runtime (pre ++ inv :: post)) = 0 /\
                 calls (runtime (pre ++ inv :: post)) = 0).
Proof.
  intros Hpre Hbad. eexists.
  assert (processEvents (pre ++ inv :: post)
          = (tr ++ [FetchNext], h,
             inl (Error "Unexpected /invocation/next response"))) as Hrun.
  { unfold processEvents. rewrite loop_turns, turns_app, Hpre.
    cbn [turns]. rewrite bind_run, turn_bad_status by done. done. }
  assert (runtime (pre ++ inv :: post)
          = tr ++ [FetchNext;
                   ConsoleError (Error "Unexpected /invocation/next response");
                   Exit 1]) as Hrt.
  { unfold runtime. rewrite Hrun. by rewrite <- (assoc_L (++)). }
  split_and!; [exact Hrun | exact Hrt | | |].
  - rewrite Hrt, imports_app.
    change (imports [FetchNext; _; Exit 1]) with 0. lia.
  - rewrite Hrt, calls_app.
    change (calls [FetchNext; _; Exit 1]) with 0. lia.
  - intros ->. cbn in Hpre. injection Hpre as <- <-. by rewrite Hrt.
Qed.

Lemma bad_poll_status_is_fatal_witness :
  let ok id :=
    {| next_status := 200; next_traceId := None; next_awsRequestId := Some id;
       next_event := true; import_default := Some Callable;
       request_built := true; handled := inr (mkPayload 200 "SGVsbG8gV29ybGQh");
       post_status := 202 |} in
  let bad :=
    {| next_status := 500; next_traceId := None; next_awsRequestId := None;
       next_event := false; import_default := Some Callable;
       request_built := true; handled := inr (mkPayload 200 "");
       post_status := 202 |} in
  exists err,
    runtime ([ok "a"] ++ bad :: [ok "c"])
    = [FetchNext; DeleteTraceId; ImportHandler; CallHandler "a";
       PostResponse "a" (mkPayload 200 "SGVsbG8gV29ybGQh")]
      ++ [FetchNext; ConsoleError err; Exit 1].
Proof.
  intros ok bad.
  destruct (bad_poll_status_is_fatal [ok "a"] bad [ok "c"] _ _ eq_refl)
    as (err & _ & H & _); [discriminate|].
  by exists err.
Defined.






(** ** More on the runtime loop *)

Lemma turn_keeps_stored_handler (inv : Invocation) (h h' : handler_ref)
    (tr : list action) (r : error + unit) :
  not_handler h = false -> turn inv h = (tr, h', r) ->
  h' = h /\ imports tr = 0 /\ (h = HSet TruthyValue -> calls tr = 0).
Proof.
  destruct inv as [st tid rid ev imp rb hd ps]. intros Hh.
  unfold turn, nextInvocation, try_catch, try_block, invokeError,
    invokeResponse, get_handler, set_handler, emit, throw.
  rewrite !bind_run. cbn [next_status next_traceId next_awsRequestId next_event
    import_default request_built handled post_status].
  destruct (decide (st ≠ 200%Z)); [by intros [= <- <- <-]|].
  destruct h as [|[]]; try discriminate Hh;
    destruct tid, rid, ev, rb, hd, (decide (ps ≠ 202%Z));
    intros [= <- <- <-]; split_and!; try reflexivity; try discriminate.
Qed.

(** Once [handler] holds a default export that is not falsy, the loop
    never assigns it again and never imports the module again, whatever
    the invocations bring, protocol errors included.  When the stored
    export is not a function, the handler is never called either. *)
Theorem stored_handler_is_never_replaced
    (script : list Invocation) (h h' : handler_ref)
    (tr : list action) (r : error + unit) :
  not_handler h = false ->
  loop script h = (tr, h', r) ->
  h' = h /\ imports tr = 0 /\ (h = HSet TruthyValue -> calls tr = 0).
Proof.
  intros Hh. revert tr h' r. induction script as [|inv script IH]; intros tr h' r.
  { intros [= <- <- <-]. by split_and!. }
  cbn [loop]. rewrite bind_run.
  destruct (turn inv h) as [[tr1 h1] [e|[]]] eqn:E1.
  - intros [= <- <- <-]. by apply (turn_keeps_stored_handler inv h h1 tr1 (inl e)).
  - destruct (turn_keeps_stored_handler inv h h1 tr1 (inr tt) Hh E1)
      as (-> & Hi1 & Hc1).
    destruct (loop script h) as [[tr2 h2] r2] eqn:E2.
    intros [= <- <- <-].
    destruct (IH tr2 h2 r2 eq_refl) as (-> & Hi2 & Hc2).
    split_and!; [done | rewrite imports_app; lia |].
    intros Ht. rewrite calls_app, Hc1, Hc2; done.
Qed.

Lemma stored_handler_is_never_replaced_witness :
  let inv :=
    {| next_status := 200; next_traceId := None; next_awsRequestId := Some "a";
       next_event := true; import_default := Some Callable;
       request_built := true; handled := inl (Error "boom");
       post_status := 202 |} in
  let res := loop [inv; inv] (HSet TruthyValue) in
  res.1.2 = HSet TruthyValue /\ imports res.1.1 = 0 /\ calls res.1.1 = 0.
Proof.
  intros inv res.
  destruct (stored_handler_is_never_replaced [inv; inv] (HSet TruthyValue)
              res.1.2 res.1.1 res.2 eq_refl eq_refl) as (H1 & H2 & H3).
  split_and!; [exact H1 | exact H2 | by apply H3].
Defined.




(** A long-poll answered 200 without the request-id header, or with a
    body that is not JSON, ends the process as well: the trace-id variable
    has been set or deleted by then, but nothing is imported, called or
    posted for that invocation, and no later invocation is polled for. *)
Theorem poll_without_request_id_is_fatal
    (pre : list Invocation) (inv : Invocation) (post : list Invocation)
    (tr : list action) (h : handler_ref) :
  turns pre HNull = (tr, h, inr tt) ->
  next_status inv = 200%Z ->
  next_awsRequestId inv = None \/ next_event inv = false ->
  exists err,
    runtime (pre ++ inv :: post)
    = tr ++ [FetchNext;
             match next_traceId inv with
             | Some traceId => SetTraceId traceId
             | None => DeleteTraceId
             end;
             ConsoleError err; Exit 1].
Proof.
  intros Hpre Hs Hbad.
  assert (exists err,
    turn inv h = ([FetchNext;
                   match next_traceId inv with
                   | Some traceId => SetTraceId traceId
                   | None => DeleteTraceId
                   end], h, inl err)) as [err E].
  { destruct inv as [st tid rid ev imp rb hd ps]. cbn in Hs, Hbad |- *. subst.
    unfold turn, nextInvocation, emit, throw. rewrite !bind_run.
    cbn [next_status next_traceId next_awsRequestId next_event].
    destruct tid, rid, ev, Hbad; try discriminate; by eexists. }
  exists err. unfold runtime, processEvents.
  rewrite loop_turns, turns_app, Hpre. cbn [turns]. rewrite bind_run, E.
  by rewrite <- (assoc_L (++)).
Qed.

Lemma poll_without_request_id_is_fatal_witness :
  let inv :=
    {| next_status := 200; next_traceId := Some "Root=1";
       next_awsRequestId := None; next_event := true;
       import_default := Some Callable; request_built := true;
       handled := inr (mkPayload 200 ""); post_status := 202 |} in
  exists err,
    runtime ([] ++ inv :: [inv])
    = [] ++ [FetchNext; SetTraceId "Root=1"; ConsoleError err; Exit 1].
Proof.
  intros inv.
  apply (poll_without_request_id_is_fatal [] inv [inv] [] HNull eq_refl eq_refl).
  by left.
Defined.



(** ** More on [waitForPortFile] *)

(** The polling loop gets past any number of turns in which the port file
    is not there yet; a turn that finds the abort signal set ends it with
    [undefined] before any read; a port is only ever returned from the
    text of a successful read in a turn where the signal was not set; and
    [console.error] is called at most once. *)
Theorem polling_waits_for_the_file :
  (forall pre rest : list Poll,
     Forall (fun p => aborted p = false /\ read p = Throw ENOENT) pre ->
     waitForPortFile (pre ++ rest) = waitForPortFile rest) /\
  (forall (p : Poll) (rest : list Poll),
     aborted p = true -> waitForPortFile (p :: rest) = (0, Returned None)) /\
  (forall (polls : list Poll) (info : PortInfo),
     (waitForPortFile polls).2 = Returned (Some info) ->
     exists p text, p ∈ polls /\ aborted p = false /\ read p = Ok text /\
                    info = {| port := Number text |}) /\
  (forall polls : list Poll, (waitForPortFile polls).1 <= 1).
Proof.
  split_and!.
  - intros pre rest Hpre. induction Hpre as [|p pre [Ha Hr] _ IH]; [done|].
    cbn [app waitForPortFile]. rewrite Ha, Hr.
    by destruct (decide (ENOENT ≠ ENOENT)).
  - intros p rest Ha. simpl. by rewrite Ha.
  - intros polls info. induction polls as [|p polls IH]; [done|].
    cbn [waitForPortFile]. destruct (aborted p) eqn:Ha; [done|].
    destruct (read p) as [text|code] eqn:Hr.
    + intros [= <-]. exists p, text. split_and!; [by left | done..].
    + destruct (decide (code ≠ ENOENT)); [done|].
      intros H. destruct (IH H) as (q & text & Hq & ?).
      exists q, text. split; [by right | done].
  - intros polls. induction polls as [|p polls IH]; [simpl; lia|].
    cbn [waitForPortFile]. destruct (aborted p); [simpl; lia|].
    destruct (read p) as [text|code].
    + destruct (unlinked p); simpl; lia.
    + destruct (decide (code ≠ ENOENT)); [simpl; lia | done].
Qed.

(** ** More on [deleteEmptyDirs] *)

Lemma child_name_Some (dir p : path) (name : string) :
  child_name dir p = Some name <-> p = dir ++ [name].
Proof.
  unfold child_name. split.
  - destruct (reverse p) as [|n parent] eqn:E; [done|].
    destruct (decide (reverse parent = dir)) as [<-|]; [|done].
    intros [= ->]. rewrite <- (reverse_involutive p), E. apply reverse_cons.
  - intros ->. rewrite reverse_snoc.
    destruct (decide (reverse (reverse dir) = dir)) as [|Hne]; [done|].
    by rewrite reverse_involutive in Hne.
Qed.

Lemma elem_of_children (dir : path) (t : tree) (name : string) :
  name ∈ children dir t <-> is_Some (t !! (dir ++ [name])).
Proof.
  unfold children. rewrite list_elem_of_omap. split.
  - intros (p & Hp & Hc). apply child_name_Some in Hc as ->.
    by apply elem_of_elements, elem_of_dom in Hp.
  - intros H. exists (dir ++ [name]). split.
    + by apply elem_of_elements, elem_of_dom.
    + by apply child_name_Some.
Qed.

Lemma children_nil (dir : path) (t : tree) :
  children dir t = [] <-> forall name, t !! (dir ++ [name]) = None.
Proof.
  split.
  - intros H name. apply eq_None_not_Some. rewrite <- elem_of_children, H.
    apply not_elem_of_nil.
  - intros H. destruct (children dir t) as [|name l] eqn:E; [done|].
    assert (name ∈ children dir t) as Hin by (rewrite E; by left).
    apply elem_of_children in Hin. rewrite H in Hin. by destruct Hin.
Qed.

Lemma rmdir_Ok (dir : path) (t t' : tree) :
  rmdir dir t = Ok t' ->
  t !! dir = Some Dir /\ dir <> [] /\ children dir t = [] /\ t' = delete dir t.
Proof.
  unfold rmdir. destruct (t !! dir) as [[]|]; [done | | done].
  destruct (decide (dir = [])); [done|].
  destruct (decide (children dir t = [])); [|done].
  by intros [= <-].
Qed.

Lemma dirname_snoc (p : path) (name : string) : dirname (p ++ [name]) = p.
Proof.
  unfold dirname. rewrite length_app. cbn [length].
  replace (length p + 1 - 1) with (length p) by lia. apply take_app_length.
Qed.

Lemma path_snoc (dir : path) :
  dir <> [] -> exists name, dir = dirname dir ++ [name].
Proof.
  induction dir as [|name dir _] using rev_ind; [done|].
  intros _. exists name. by rewrite dirname_snoc.
Qed.


Lemma closed_delete_empty (dir : path) (t : tree) :
  closed t -> children dir t = [] -> closed (delete dir t).
Proof.
  intros Hc He p name [x Hx].
  apply lookup_delete_Some in Hx as [Hne Hx].
  rewrite lookup_delete_ne.
  - apply (Hc p name). by eexists.
  - intros ->. rewrite (proj1 (children_nil _ _) He name) in Hx. done.
Qed.

Lemma readdir_Ok (dir : path) (t : tree) (files : list string) :
  readdir dir t = Ok files <-> t !! dir = Some Dir /\ files = children dir t.
Proof.
  unfold readdir. destruct (t !! dir) as [[]|]; split; try done.
  - by intros [[=] _].
  - by intros [= <-].
  - by intros [_ ->].
  - by intros [[=] _].
Qed.

(** Induction on [deleteEmptyDirs] along its recursion equation. *)
Lemma deleteEmptyDirs_ind (P : path -> tree -> option (result tree) -> Prop) :
  (forall dir t e, readdir dir t = Throw e -> P dir t (Some (Throw e))) ->
  (forall dir t files,
     readdir dir t = Ok files -> length files ≠ 0 -> P dir t (Some (Ok t))) ->
  (forall dir t e,
     readdir dir t = Ok [] -> rmdir dir t = Throw e -> P dir t (Some (Throw e))) ->
  (forall dir t t',
     readdir dir t = Ok [] -> rmdir dir t = Ok t' ->
     P (dirname dir) t' (deleteEmptyDirs (dirname dir) t') ->
     P dir t (deleteEmptyDirs (dirname dir) t')) ->
  forall dir t, P dir t (deleteEmptyDirs dir t).
Proof.
  intros Hread Hstop Hrm Hrec dir.
  remember (length dir) as n eqn:Hn. revert dir Hn.
  induction n as [n IH] using lt_wf_ind. intros dir Hn t.
  rewrite deleteEmptyDirs_unfold.
  destruct (readdir dir t) as [files|e] eqn:Er; [|by apply Hread].
  destruct (decide (length files ≠ 0)) as [Hne|He]; [by eapply Hstop|].
  assert (files = []) as -> by (destruct files; [done | simpl in He; lia]).
  destruct (rmdir dir t) as [t'|e] eqn:Em; [|by apply Hrm].
  apply Hrec; [done..|].
  pose proof (rmdir_Ok_not_root _ _ _ Em) as Hroot.
  apply (IH (length (dirname dir))); [|done].
  pose proof (dirname_length dir Hroot). lia.
Qed.

(** When [deleteEmptyDirs(dir)] returns, it has removed [dir] and the
    directories above it up to some level, [k] of them in all, and the
    directory at which it stopped holds an entry: it stops at the first
    directory that is not empty, counting from [dir] upwards. *)
Theorem pruning_stops_at_first_nonempty_directory
    (dir : path) (t t' : tree) :
  deleteEmptyDirs dir t = Some (Ok t') ->
  exists k files,
    k <= length dir /\
    t' = without_chain k dir t /\
    readdir (take (length dir - k) dir) t' = Ok files /\ files <> [].
Proof.
  revert t'.
  apply (deleteEmptyDirs_ind (fun dir t r => forall t', r = Some (Ok t') ->
    exists k files, k <= length dir /\ t' = without_chain k dir t /\
      readdir (take (length dir - k) dir) t' = Ok files /\ files <> [])).
  - done.
  - clear dir t. intros dir t files Hr Hne t' [= <-]. exists 0, files.
    rewrite Nat.sub_0_r, firstn_all. split_and!; [lia | done | done |].
    by intros ->.
  - done.
  - clear dir t. intros dir t t1 Hr Hm IH t' Ht'.
    destruct (IH t' Ht') as (k & files & Hk & -> & Hstop & Hne).
    apply rmdir_Ok in Hm as (Hdir & Hroot & _ & ->).
    pose proof (dirname_length dir Hroot) as Hlen.
    exists (S k), files. split_and!; [lia | done | | done].
    cbn [without_chain].
    assert (take (length (dirname dir) - k) (dirname dir)
            = take (length dir - S k) dir) as <-; [|done].
    unfold dirname at 2. rewrite take_take. f_equal. lia.
Qed.

Lemma pruning_stops_at_first_nonempty_directory_witness :
  let t : tree :=
    list_to_map [([], Dir); (["a"], Dir); (["a"; "keep.ts"], File);
                 (["a"; "b"], Dir); (["a"; "b"; "c"], Dir)] in
  let t' : tree :=
    list_to_map [([], Dir); (["a"], Dir); (["a"; "keep.ts"], File)] in
  exists k files,
    k <= 3 /\ t' = without_chain k ["a"; "b"; "c"] t /\
    readdir (take (3 - k) ["a"; "b"; "c"]) t' = Ok files /\ files <> [].
Proof.
  intros t t'.
  assert (deleteEmptyDirs ["a"; "b"; "c"] t = Some (Ok t')) as E
    by (vm_compute; reflexivity).
  exact (pruning_stops_at_first_nonempty_directory _ _ _ E).
Defined.

(** What [deleteEmptyDirs] returns differs from the tree it was given
    only by directories of that tree that lie on the way from the root to
    [dir], which are gone: no file is removed, nothing is added, nothing
    beside that way is touched.  And no directory that still holds an
    entry is removed: if every entry lay in a directory of the tree
    before, it does so after. *)
Theorem pruning_removes_only_empty_directories (dir : path) (t t' : tree) :
  deleteEmptyDirs dir t = Some (Ok t') ->
  (forall p,
     t' !! p = t !! p \/
     (t' !! p = None /\ t !! p = Some Dir /\ p `prefix_of` dir)) /\
  (closed t -> closed t').
Proof.
  revert t'.
  apply (deleteEmptyDirs_ind (fun dir t r => forall t', r = Some (Ok t') ->
    (forall p, t' !! p = t !! p \/
               (t' !! p = None /\ t !! p = Some Dir /\ p `prefix_of` dir)) /\
    (closed t -> closed t'))).
  - done.
  - clear dir t. intros dir t files _ _ t' [= <-]. split; [by left | done].
  - done.
  - clear dir t. intros dir t t1 Hr Hm IH t' Ht'.
    destruct (IH t' Ht') as [Hframe Hclosed].
    apply rmdir_Ok in Hm as (Hdir & Hroot & Hempty & ->).
    assert (dirname dir `prefix_of` dir) as Hpre by apply prefix_take.
    split.
    + intros p. destruct (decide (p = dir)) as [->|Hp].
      * right. split_and!; [|done..].
        destruct (Hframe dir) as [->|[-> _]]; [apply lookup_delete_eq | done].
      * destruct (Hframe p) as [->|(-> & Hd & Hpp)].
        -- left. by apply lookup_delete_ne.
        -- right. rewrite lookup_delete_ne in Hd by done.
           split_and!; [done | done | by etransitivity].
    + intros Hc. by apply Hclosed, closed_delete_empty.
Qed.

Lemma pruning_removes_only_empty_directories_witness :
  let t : tree :=
    list_to_map [([], Dir); (["a"], Dir); (["a"; "keep.ts"], File);
                 (["a"; "b"], Dir); (["a"; "b"; "c"], Dir)] in
  let t' : tree :=
    list_to_map [([], Dir); (["a"], Dir); (["a"; "keep.ts"], File)] in
  let p := ["a"; "keep.ts"] in
  t' !! p = t !! p \/
  (t' !! p = None /\ t !! p = Some Dir /\ p `prefix_of` ["a"; "b"; "c"]).
Proof.
  intros t t' p.
  assert (deleteEmptyDirs ["a"; "b"; "c"] t = Some (Ok t')) as E
    by (vm_compute; reflexivity).
  exact (proj1 (pruning_removes_only_empty_directories _ _ _ E) p).
Defined.



(** ** [toLambdaErr] *)

Import LambdaError.

Lemma split_lines_cons (s : string) :
  exists line lines, split_lines s = line :: lines.
Proof.
  induction s as [|c s (line & lines & IH)]; [by eexists _, _|].
  cbn [split_lines]. destruct (decide (c = newline)); [by eexists _, _|].
  rewrite IH. by eexists _, _.
Qed.

Lemma join_lines_cons (x y : string) (l : list string) :
  join_lines (x :: y :: l)
  = String.app x (String newline (join_lines (y :: l))).
Proof. done. Qed.

Lemma join_split_lines (s : string) : join_lines (split_lines s) = s.
Proof.
  induction s as [|c s IH]; [done|].
  cbn [split_lines].
  destruct (split_lines_cons s) as (line & lines & E). rewrite E in IH |- *.
  destruct (decide (c = newline)) as [->|].
  - rewrite join_lines_cons, IH. done.
  - destruct lines as [|line' lines].
    + cbv [join_lines String.concat] in IH |- *. by rewrite IH.
    + rewrite join_lines_cons in IH |- *.
      change (String c (String.app line (String newline (join_lines (line' :: lines))))
              = String c s).
      by rewrite IH.
Qed.

Lemma split_lines_no_newline (s : string) :
  Forall (fun line => has_newline line = false) (split_lines s).
Proof.
  induction s as [|c s IH]; [by repeat constructor|].
  cbn [split_lines]. destruct (decide (c = newline)) as [->|Hc].
  - by constructor.
  - destruct (split_lines_cons s) as (line & lines & E). rewrite E in IH |- *.
    apply Forall_cons in IH as [H1 H2]. constructor; [|done].
    cbn [has_newline]. rewrite H1. by rewrite bool_decide_eq_false_2.
Qed.

Lemma split_lines_one_line (s : string) :
  has_newline s = false -> split_lines s = [s].
Proof.
  induction s as [|c s IH]; [done|]. cbn [has_newline split_lines].
  intros H. apply orb_false_iff in H as [Hc Hs].
  apply bool_decide_eq_false in Hc.
  destruct (decide (c = newline)); [done|]. by rewrite IH.
Qed.

(** The stack trace that is posted is the stack without its first line:
    putting the first line back in front, with line feeds between the
    lines, gives the stack again, and no line of the trace holds a line
    feed.  The trace is empty for an error without stack, with an empty
    stack, or with a stack of a single line. *)
Theorem stack_trace_is_stack_without_first_line (e : js_error) :
  let r := toLambdaErr e in
  errorType r = name e /\ errorMessage r = message e /\
  Forall (fun line => has_newline line = false) (stackTrace r) /\
  (exists first,
     has_newline first = false /\
     join_lines (first :: stackTrace r) = default EmptyString (stack e)) /\
  (has_newline (default EmptyString (stack e)) = false -> stackTrace r = []).
Proof.
  cbn zeta. unfold toLambdaErr. cbn [errorType errorMessage stackTrace].
  set (s := default EmptyString (stack e)).
  pose proof (split_lines_no_newline s) as Hno.
  pose proof (join_split_lines s) as Hjoin.
  destruct (split_lines_cons s) as (first & lines & E).
  rewrite E in Hno, Hjoin |- *. cbn [drop].
  apply Forall_cons in Hno as [H1 H2].
  split_and!; [done | done | done | by exists first |].
  intros H. apply split_lines_one_line in H. rewrite H in E. by injection E.
Qed.
(** ** More on the rewriting of the documents *)

Section SetIndependence.
Variables oldPath newPath : string.

Lemma patch_fileInfos_fst_acc (m : list (string * jsval)) (a a' : Acc) :
  (patch_fileInfos oldPath newPath m a).1 = (patch_fileInfos oldPath newPath m a').1.
Proof. unfold patch_fileInfos. by rewrite !patch_fileInfos_map. Qed.

Lemma patch_refMap_fst_acc (m : list (string * list jsval)) (a a' : Acc) :
  (patch_refMap oldPath newPath m a).1 = (patch_refMap oldPath newPath m a').1.
Proof.
  unfold patch_refMap. cbn [fst]. by rewrite !run_entries_heap, !run_entries_map.
Qed.

Lemma patch_buildInfo_doc_acc (b : BuildInfo) (sf sf' : option jsset) :
  br_buildInfo (patch_buildInfo oldPath newPath b sf)
  = br_buildInfo (patch_buildInfo oldPath newPath b sf').
Proof.
  destruct (patch_buildInfo_program oldPath newPath b sf) as (a1 & a2 & ->).
  destruct (patch_buildInfo_program oldPath newPath b sf') as (a1' & a2' & ->).
  rewrite (patch_fileInfos_fst_acc _ (mkAcc sf false) (mkAcc sf' false)).
  rewrite (patch_refMap_fst_acc (referencedMap _) a1 a1').
  by rewrite (patch_refMap_fst_acc (exportedModulesMap _) a2 a2').
Qed.

Lemma visit_graphs_writes (gs : list (string * Graph))
    (w : list (string * document)) (sf sf' : option jsset) :
  (foldl (visit_graph oldPath newPath) (w, sf) gs).1
  = (foldl (visit_graph oldPath newPath) (w, sf') gs).1.
Proof.
  revert w sf sf'. induction gs as [|[file g] gs IH]; intros w sf sf'; [done|].
  cbn [foldl]. rewrite !visit_graph_eq, !patch_graph_eq. cbn [gr_graph].
  apply IH.
Qed.

Lemma visit_buildInfos_writes (bs : list (string * BuildInfo))
    (w : list (string * document)) (sf sf' : option jsset) :
  (foldl (visit_buildInfo oldPath newPath) (w, sf) bs).1
  = (foldl (visit_buildInfo oldPath newPath) (w, sf') bs).1.
Proof.
  revert w sf sf'. induction bs as [|[file b] bs IH]; intros w sf sf'; [done|].
  cbn [foldl]. rewrite !visit_buildInfo_eq.
  rewrite (patch_buildInfo_doc_acc b sf sf'). apply IH.
Qed.

End SetIndependence.

(** The set of source files is only written to: the documents after the
    pass and the decision to write a file back are the same whatever set
    is passed, and also when none is passed, in which case none is
    returned.  The builder relies on it: its first call of
    [moveCacheFiles] passes no set. *)
Theorem rewrite_does_not_depend_on_the_set
    (oldPath newPath : string) (sf sf' : option jsset) :
  (forall graph : Graph,
     let r := patch_graph oldPath newPath graph sf in
     let r' := patch_graph oldPath newPath graph sf' in
     gr_graph r = gr_graph r' /\ gr_written r = gr_written r') /\
  (forall b : BuildInfo,
     let r := patch_buildInfo oldPath newPath b sf in
     let r' := patch_buildInfo oldPath newPath b sf' in
     br_buildInfo r = br_buildInfo r' /\ br_written r = br_written r') /\
  (forall (graphs : list (string * Graph))
          (buildInfos : list (string * BuildInfo)),
     (patch_files oldPath newPath graphs buildInfos sf).1
     = (patch_files oldPath newPath graphs buildInfos sf').1 /\
     (patch_files oldPath newPath graphs buildInfos None).2 = None).
Proof.
  split_and!.
  - intros graph. cbn zeta. by rewrite !patch_graph_eq.
  - intros b. cbn zeta.
    destruct (patch_buildInfo_acc oldPath newPath b sf) as [_ ->].
    destruct (patch_buildInfo_acc oldPath newPath b sf') as [_ ->].
    by rewrite (patch_buildInfo_doc_acc oldPath newPath b sf sf').
  - intros graphs buildInfos. split.
    + unfold patch_files.
      destruct (foldl (visit_graph oldPath newPath) ([], sf) graphs)
        as [w1 s1] eqn:E1.
      destruct (foldl (visit_graph oldPath newPath) ([], sf') graphs)
        as [w2 s2] eqn:E2.
      assert (w1 = w2) as ->.
      { change w1 with (w1, s1).1. rewrite <- E1.
        change w2 with (w2, s2).1. rewrite <- E2.
        apply visit_graphs_writes. }
      apply visit_buildInfos_writes.
    + by destruct (patch_files_spec oldPath newPath graphs buildInfos None)
        as [-> _].
Qed.

Section KeyProvenance.
Variables oldPath newPath : string.

Lemma foldl_rekey_key_provenance {V E : Type} (key : E -> string)
    (val : list (string * V) -> E -> V) (es todo : list E)
    (mp : list (string * V)) :
  (forall e, e ∈ todo -> e ∈ es) ->
  (forall k', k' ∈ obj_keys mp ->
     exists e, e ∈ es /\
       (k' = relocate_string oldPath newPath (key e) \/ (k' = key e /\ e ∈ todo))) ->
  forall k',
    k' ∈ obj_keys (foldl (fun mp e => rekey oldPath newPath mp (key e) (val mp e))
                     mp todo) ->
    exists e, e ∈ es /\ k' = relocate_string oldPath newPath (key e).
Proof.
  revert mp. induction todo as [|e0 todo IH]; intros mp Hsub Inv k'.
  { cbn [foldl]. intros H. destruct (Inv _ H) as (e & He & [?|[_ Hin]]).
    - by exists e.
    - by apply elem_of_nil in Hin. }
  cbn [foldl].
  apply IH; [by intros e He; apply Hsub; right|]. clear k'. intros k'.
  assert (e0 ∈ es) as Hes by (apply Hsub; left).
  rewrite rekey_keys.
  destruct (startsWith (key e0) (workPathUri oldPath)) eqn:Ee.
  - intros [Hne [->|H]].
    + exists e0. split; [done|]. left. unfold relocate_string. by rewrite Ee.
    + destruct (Inv _ H) as (e & He & [?|[-> Hin]]).
      * exists e. split; [done | by left].
      * apply elem_of_cons in Hin as [->|Hin]; [done|].
        exists e. split; [done | by right].
  - intros H. destruct (Inv _ H) as (e & He & [?|[-> Hin]]).
    + exists e. split; [done | by left].
    + apply elem_of_cons in Hin as [->|Hin].
      * exists e0. split; [done|]. left.
        unfold relocate_string. by rewrite Ee.
      * exists e. split; [done | by right].
Qed.

(** Every key of [fileInfos] after the pass is a key it had before,
    rewritten. *)
Lemma patch_fileInfos_key_provenance (m : list (string * jsval)) (a : Acc)
    (k' : string) :
  k' ∈ obj_keys (patch_fileInfos oldPath newPath m a).1 ->
  exists k, k ∈ obj_keys m /\ k' = relocate_string oldPath newPath k.
Proof.
  unfold patch_fileInfos. rewrite patch_fileInfos_map. intros H.
  apply (foldl_rekey_key_provenance (fun k => k)
           (fun mp k => default JUndefined (obj_get k mp)) (obj_keys m)) in H.
  - done.
  - done.
  - intros k1 H1. exists k1. split; [done | by right].
Qed.

Lemma relocate_string_leaves (s : string) :
  leaves_old_root oldPath newPath s = true ->
  startsWith (relocate_string oldPath newPath s) (workPathUri oldPath) = false.
Proof.
  unfold leaves_old_root, relocate_string.
  destruct (startsWith s (workPathUri oldPath)) eqn:E; cbn [negb orb]; [|done].
  intros H. by apply negb_true_iff in H.
Qed.

Lemma refers_to_old_false (ss : list string) :
  refers_to_old oldPath ss = false <->
  forall s, s ∈ ss -> startsWith s (workPathUri oldPath) = false.
Proof.
  unfold refers_to_old. induction ss as [|s ss IH]; cbn [existsb].
  - split; [|done]. intros _ s H. by apply elem_of_nil in H.
  - rewrite orb_false_iff, IH. split.
    + intros [H1 H2] x Hx. apply elem_of_cons in Hx as [->|Hx]; auto.
    + intros H. split; [apply H; by left | intros x Hx; apply H; by right].
Qed.

Lemma relocated_leave (ss ss' : list string) :
  forallb (leaves_old_root oldPath newPath) ss = true ->
  (forall s', s' ∈ ss' ->
     exists s, s ∈ ss /\ s' = relocate_string oldPath newPath s) ->
  refers_to_old oldPath ss' = false.
Proof.
  intros Hl Hfrom. apply refers_to_old_false. intros s' Hs'.
  destruct (Hfrom s' Hs') as (s & Hs & ->).
  apply relocate_string_leaves. by eapply forallb_elem.
Qed.

Lemma strings_of_relocate_array (l : list jsval) :
  strings_of (relocate_array oldPath newPath l)
  = relocate_string oldPath newPath <$> strings_of l.
Proof.
  unfold strings_of, relocate_array.
  induction l as [|e l IH]; [done|].
  destruct e; cbn [fmap list_fmap omap list_omap relocate_entry] in *;
    by rewrite ?IH.
Qed.

Lemma elem_of_strings_of_map (m : list (string * list jsval)) (s : string) :
  s ∈ strings_of_map m <->
  exists k l, (k, l) ∈ m /\ (s ∈ strings_of l \/ s = k).
Proof.
  unfold strings_of_map. induction m as [|[k0 l0] m IH]; cbn [flat_map fst snd].
  - split; [intros H; by apply elem_of_nil in H|].
    intros (k & l & H & _). by apply elem_of_nil in H.
  - rewrite !elem_of_app, list_elem_of_singleton, IH. split.
    + intros [[H|H]|(k & l & Hin & H)].
      * exists k0, l0. split; [by left | by left].
      * exists k0, l0. split; [by left | by right].
      * exists k, l. split; [by right | done].
    + intros (k & l & Hin & H). apply elem_of_cons in Hin as [[= -> ->]|Hin].
      * left. destruct H; [by left | by right].
      * right. by exists k, l.
Qed.

Lemma patch_refMap_string_provenance (m : list (string * list jsval)) (a : Acc)
    (s' : string) :
  s' ∈ strings_of_map (patch_refMap oldPath newPath m a).1 ->
  exists s, s ∈ strings_of_map m /\ s' = relocate_string oldPath newPath s.
Proof.
  intros H. apply elem_of_strings_of_map in H as (k' & l' & Hin & Hs).
  apply patch_refMap_provenance in Hin as (k & l & Hin & -> & ->).
  destruct Hs as [Hs| ->].
  - rewrite strings_of_relocate_array in Hs.
    apply list_elem_of_fmap in Hs as (s & -> & Hs).
    exists s. split; [|done]. apply elem_of_strings_of_map.
    exists k, l. split; [done | by left].
  - exists k. split; [|done]. apply elem_of_strings_of_map.
    exists k, l. split; [done | by right].
Qed.

Lemma patch_buildInfo_string_provenance (b : BuildInfo) (sf : option jsset)
    (s' : string) :
  s' ∈ strings_of_buildInfo (br_buildInfo (patch_buildInfo oldPath newPath b sf)) ->
  exists s, s ∈ strings_of_buildInfo b /\ s' = relocate_string oldPath newPath s.
Proof.
  destruct (patch_buildInfo_program oldPath newPath b sf) as (a1 & a2 & ->).
  unfold strings_of_buildInfo.
  cbn [program fileNames fileInfos referencedMap exportedModulesMap
       semanticDiagnosticsPerFile].
  rewrite !elem_of_app. intros [H|[H|[H|[H|H]]]].
  - apply patch_fileInfos_key_provenance in H as (s & Hs & ->).
    exists s. rewrite !elem_of_app. split; [by left | done].
  - apply patch_refMap_string_provenance in H as (s & Hs & ->).
    exists s. rewrite !elem_of_app. split; [by right; left | done].
  - apply patch_refMap_string_provenance in H as (s & Hs & ->).
    exists s. rewrite !elem_of_app. split; [by right; right; left | done].
  - destruct (fileNames (program b)) as [l|]; [|by apply elem_of_nil in H].
    change (s' ∈ strings_of (relocate_array oldPath newPath l)) in H.
    change (default [] (Some l)) with l.
    rewrite strings_of_relocate_array in H.
    apply list_elem_of_fmap in H as (s & -> & Hs).
    exists s. rewrite !elem_of_app. split; [by right; right; right; left | done].
  - destruct (semanticDiagnosticsPerFile (program b)) as [l|];
      [|by apply elem_of_nil in H].
    change (s' ∈ strings_of (relocate_array oldPath newPath l)) in H.
    change (default [] (Some l)) with l.
    rewrite strings_of_relocate_array in H.
    apply list_elem_of_fmap in H as (s & -> & Hs).
    exists s. rewrite !elem_of_app. split; [by right; right; right; right | done].
Qed.

(** A document without reference to the old root comes out of the pass as
    it went in, is not written back, and leaves the set alone. *)
Lemma patch_graph_untouched (graph : Graph) (sf : option jsset) :
  refers_to_old oldPath (strings_of (deps graph)) = false ->
  patch_graph oldPath newPath graph sf
  = {| gr_graph := graph; gr_written := None; gr_sourceFiles := sf |}.
Proof.
  intros H. rewrite patch_graph_eq. cbn zeta.
  rewrite relocate_array_id by done.
  apply rels_of_nil in H. rewrite H. cbn [add_all foldl].
  destruct graph, sf; done.
Qed.

Lemma patch_buildInfo_untouched (b : BuildInfo) (sf : option jsset) :
  refers_to_old oldPath (strings_of_buildInfo b) = false ->
  patch_buildInfo oldPath newPath b sf
  = {| br_buildInfo := b; br_written := None; br_sourceFiles := sf |}.
Proof.
  intros H.
  destruct (patch_buildInfo_acc oldPath newPath b sf) as [Hsf Hw].
  cbn zeta in Hsf, Hw.
  pose proof H as Hrels. apply rels_of_nil in Hrels.
  rewrite Hrels in Hsf, Hw. cbn [add_all foldl] in Hsf.
  assert (br_buildInfo (patch_buildInfo oldPath newPath b sf) = b) as Hb.
  { destruct (patch_buildInfo_program oldPath newPath b sf) as (a1 & a2 & ->).
    unfold strings_of_buildInfo in H.
    rewrite !refers_to_old_app, !orb_false_iff in H.
    destruct H as (Hfi & Hrm & Hem & Hfn & Hsd).
    rewrite patch_fileInfos_id, !patch_refMap_id by done.
    destruct b as [[fn fi rm em sd] v]. cbn in *. do 2 f_equal.
    - destruct fn as [l|]; [|done]. cbn. by rewrite relocate_array_id.
    - destruct sd as [l|]; [|done]. cbn. by rewrite relocate_array_id. }
  destruct (patch_buildInfo oldPath newPath b sf) as [b' w' sf'].
  cbn in *. subst. by destruct sf.
Qed.

End KeyProvenance.

Lemma string_app_assoc (p q r : string) : (p +:+ q) +:+ r = p +:+ (q +:+ r).
Proof.
  induction p as [|c p IH]; [done|].
  change (String c ((p +:+ q) +:+ r) = String c (p +:+ (q +:+ r))).
  by rewrite IH.
Qed.

Lemma prefix_of_app (p q r : string) :
  startsWith (q +:+ r) p = true ->
  startsWith q p = true \/ startsWith p q = true.
Proof.
  unfold startsWith. revert q. induction p as [|c p IH]; intros q.
  - intros _. left. by destruct q.
  - destruct q as [|d q]; [intros _; by right|].
    change (String d q +:+ r) with (String d (q +:+ r)).
    cbn [String.prefix].
    destruct (Ascii.ascii_dec c d) as [->|Hne]; [|done].
    destruct (Ascii.ascii_dec d d); [|done]. apply IH.
Qed.

(** Running the pass a second time with the same roots changes nothing
    and writes nothing, provided no string rewritten by the first pass
    begins with the URI of the old root again.  That is so for every
    document when neither of [file://<old root>] and [file://<new root>/]
    is a prefix of the other. *)
Theorem second_pass_changes_nothing (oldPath newPath : string) :
  (forall (graph : Graph) (sf sf' : option jsset),
     forallb (leaves_old_root oldPath newPath) (strings_of (deps graph)) = true ->
     let once := gr_graph (patch_graph oldPath newPath graph sf) in
     patch_graph oldPath newPath once sf'
     = {| gr_graph := once; gr_written := None; gr_sourceFiles := sf' |}) /\
  (forall (b : BuildInfo) (sf sf' : option jsset),
     forallb (leaves_old_root oldPath newPath) (strings_of_buildInfo b) = true ->
     let once := br_buildInfo (patch_buildInfo oldPath newPath b sf) in
     patch_buildInfo oldPath newPath once sf'
     = {| br_buildInfo := once; br_written := None; br_sourceFiles := sf' |}) /\
  (startsWith ("file://" +:+ newPath +:+ "/") ("file://" +:+ oldPath) = false ->
   startsWith ("file://" +:+ oldPath) ("file://" +:+ newPath +:+ "/") = false ->
   forall s : string, leaves_old_root oldPath newPath s = true).
Proof.
  split_and!.
  - intros graph sf sf' H once. apply patch_graph_untouched.
    subst once. rewrite patch_graph_eq. cbn [gr_graph deps].
    apply (relocated_leave oldPath newPath (strings_of (deps graph))); [done|].
    intros s' Hs'. rewrite strings_of_relocate_array in Hs'.
    apply list_elem_of_fmap in Hs' as (s & -> & Hs). by exists s.
  - intros b sf sf' H once. apply patch_buildInfo_untouched.
    apply (relocated_leave oldPath newPath (strings_of_buildInfo b)); [done|].
    intros s' Hs'. by apply patch_buildInfo_string_provenance in Hs'.
  - intros H1 H2 s. unfold leaves_old_root.
    apply orb_true_iff. right. apply negb_true_iff.
    destruct (startsWith (updated_of newPath (relative_of oldPath s))
                (workPathUri oldPath)) eqn:E; [|done].
    unfold updated_of, workPathUri in E.
    assert ("file://" +:+ newPath +:+ "/" +:+ relative_of oldPath s
            = ("file://" +:+ newPath +:+ "/") +:+ relative_of oldPath s) as Eq.
    { by rewrite !string_app_assoc. }
    rewrite Eq in E. apply prefix_of_app in E as [E|E]; congruence.
Qed.

Lemma second_pass_changes_nothing_witness :
  let b := {| program :=
                {| fileNames := Some [JStr "file:///build/api/index.ts"];
                   fileInfos := [("file:///build/api/index.ts", JNull);
                                 ("https://deno.land/x/a.ts", JNull)];
                   referencedMap :=
                     [("file:///build/api/index.ts",
                       [JStr "file:///build/api/dep.ts"])];
                   exportedModulesMap := [];
                   semanticDiagnosticsPerFile := None |};
              version := "4.4.2" |} in
  let once := br_buildInfo (patch_buildInfo "/build" "/var/task" b None) in
  patch_buildInfo "/build" "/var/task" once (Some ["api/index.ts"])
  = {| br_buildInfo := once; br_written := None;
       br_sourceFiles := Some ["api/index.ts"] |}.
Proof.
  intros b.
  apply (proj1 (proj2 (second_pass_changes_nothing "/build" "/var/task"))
           b None (Some ["api/index.ts"])).
  reflexivity.
Defined.

Section ValuesFollowKeys.
Variables oldPath newPath : string.

Lemma obj_get_elem {V : Type} (k : string) (v : V) (m : list (string * V)) :
  obj_get k m = Some v -> (k, v) ∈ m.
Proof.
  induction m as [|[k0 v0] m IH]; [done|]. cbn [obj_get].
  destruct (decide (k = k0)) as [->|_].
  - intros [= ->]. by left.
  - intros H. right. by apply IH.
Qed.

Lemma NoDup_fmap_inj_on {A B : Type} (h : A -> B) (l : list A) (x y : A) :
  NoDup (h <$> l) -> x ∈ l -> y ∈ l -> h x = h y -> x = y.
Proof.
  induction l as [|z l IH]; [by intros _ H; apply elem_of_nil in H|].
  cbn [fmap list_fmap]. intros Hnd Hx Hy E.
  apply NoDup_cons in Hnd as [Hz Hnd].
  apply elem_of_cons in Hx as [->|Hx]; apply elem_of_cons in Hy as [->|Hy].
  - done.
  - destruct Hz. rewrite E. by apply list_elem_of_fmap_2.
  - destruct Hz. rewrite <- E. by apply list_elem_of_fmap_2.
  - by apply IH.
Qed.

Lemma fileInfos_values (m : list (string * jsval)) (a : Acc) :
  NoDup (relocate_string oldPath newPath <$> obj_keys m) ->
  no_clash oldPath newPath (obj_keys m) = true ->
  let m' := (patch_fileInfos oldPath newPath m a).1 in
  length m' = length m /\
  forall k v, obj_get k m = Some v ->
              obj_get (relocate_string oldPath newPath k) m' = Some v.
Proof.
  intros Hnd Hnc m'.
  assert (m' ≡ₚ relocate_keys oldPath newPath m) as Hp.
  { apply patch_fileInfos_perm.
    - by apply NoDup_fmap_1 in Hnd.
    - intros k Hk Hm. by apply no_clash_elem.
    - intros k1 k2. by apply NoDup_fmap_inj_on. }
  split.
  - rewrite Hp. apply length_fmap.
  - intros k v H. apply obj_get_elem in H. apply obj_get_NoDup.
    + by rewrite (obj_keys_perm _ _ Hp), relocate_keys_keys.
    + rewrite Hp. unfold relocate_keys.
      by apply (list_elem_of_fmap_2
                  (fun kv => (relocate_string oldPath newPath kv.1, kv.2)) _ (k, v)).
Qed.

Lemma refMap_values (m : list (string * list jsval)) (a : Acc) :
  NoDup (relocate_string oldPath newPath <$> obj_keys m) ->
  no_clash oldPath newPath (obj_keys m) = true ->
  let m' := (patch_refMap oldPath newPath m a).1 in
  length m' = length m /\
  forall k l, obj_get k m = Some l ->
              obj_get (relocate_string oldPath newPath k) m'
              = Some (relocate_array oldPath newPath l).
Proof.
  intros Hnd Hnc m'.
  assert (m' ≡ₚ relocate_map oldPath newPath m) as Hp.
  { apply patch_refMap_perm.
    - by apply NoDup_fmap_1 in Hnd.
    - intros k Hk Hm. by apply no_clash_elem.
    - intros k1 k2. by apply NoDup_fmap_inj_on. }
  split.
  - rewrite Hp. apply length_fmap.
  - intros k l H. apply obj_get_elem in H. apply obj_get_NoDup.
    + by rewrite (obj_keys_perm _ _ Hp), relocate_map_keys.
    + rewrite Hp. unfold relocate_map.
      by apply (list_elem_of_fmap_2
                  (fun kl => (relocate_string oldPath newPath kl.1,
                              relocate_array oldPath newPath kl.2)) _ (k, l)).
Qed.

End ValuesFollowKeys.

(** When the rewritten keys of a map are distinct and none of them is a
    key the map already has, the pass loses and adds no entry, and what
    was stored under a key is found under the rewritten key: for
    [fileInfos] the same value, for [referencedMap] and
    [exportedModulesMap] the list with its entries rewritten. *)
Theorem values_follow_their_keys
    (oldPath newPath : string) (b : BuildInfo) (sf : option jsset) :
  let p := program b in
  let p' := program (br_buildInfo (patch_buildInfo oldPath newPath b sf)) in
  let f := relocate_string oldPath newPath in
  let safe (ks : list string) :=
    NoDup (f <$> ks) /\ no_clash oldPath newPath ks = true in
  (safe (obj_keys (fileInfos p)) ->
   length (fileInfos p') = length (fileInfos p) /\
   forall k v, obj_get k (fileInfos p) = Some v ->
               obj_get (f k) (fileInfos p') = Some v) /\
  (safe (obj_keys (referencedMap p)) ->
   length (referencedMap p') = length (referencedMap p) /\
   forall k l, obj_get k (referencedMap p) = Some l ->
               obj_get (f k) (referencedMap p')
               = Some (relocate_array oldPath newPath l)) /\
  (safe (obj_keys (exportedModulesMap p)) ->
   length (exportedModulesMap p') = length (exportedModulesMap p) /\
   forall k l, obj_get k (exportedModulesMap p) = Some l ->
               obj_get (f k) (exportedModulesMap p')
               = Some (relocate_array oldPath newPath l)).
Proof.
  cbn zeta.
  destruct (patch_buildInfo_program oldPath newPath b sf) as (a1 & a2 & ->).
  cbn [program fileInfos referencedMap exportedModulesMap].
  split_and!; intros [Hnd Hnc].
  - by apply fileInfos_values.
  - by apply refMap_values.
  - by apply refMap_values.
Qed.

Lemma values_follow_their_keys_witness :
  let b := {| program :=
                {| fileNames := None;
                   fileInfos := [("file:///build/api/index.ts", JNum 1);
                                 ("https://deno.land/x/a.ts", JNum 2)];
                   referencedMap :=
                     [("file:///build/api/index.ts",
                       [JStr "file:///build/api/dep.ts"])];
                   exportedModulesMap := [];
                   semanticDiagnosticsPerFile := None |};
              version := "4.4.2" |} in
  let p' := program (br_buildInfo (patch_buildInfo "/build" "/var/task" b None)) in
  obj_get "file:///var/task/api/index.ts" (fileInfos p') = Some (JNum 1) /\
  obj_get "file:///var/task/api/index.ts" (referencedMap p')
  = Some [JStr "file:///var/task/api/dep.ts"].
Proof.
  intros b.
  pose proof (values_follow_their_keys "/build" "/var/task" b None) as (H1 & H2 & _).
  split.
  - refine (proj2 (H1 _) "file:///build/api/index.ts" (JNum 1) eq_refl).
    split; [apply (bool_decide_unpack _); vm_compute; exact I | reflexivity].
  - refine (proj2 (H2 _) "file:///build/api/index.ts"
              [JStr "file:///build/api/dep.ts"] eq_refl).
    split; [apply (bool_decide_unpack _); vm_compute; exact I | reflexivity].
Defined.

(** ** [getFilesWithExtension] *)

Import Walk.


Lemma children_NoDup (dir : path) (t : tree) : NoDup (children dir t).
Proof.
  unfold children.
  pose proof (NoDup_elements (dom t)) as Hnd.
  induction (elements (dom t)) as [|p l IH]; [constructor|].
  apply NoDup_cons in Hnd as [Hp Hnd]. cbn [omap list_omap].
  destruct (child_name dir p) as [name|] eqn:E; [|by apply IH].
  apply NoDup_cons. split; [|by apply IH].
  intros Hin. apply list_elem_of_omap in Hin as (p' & Hp' & E').
  apply child_name_Some in E, E'. by subst.
Qed.

Section WalkLoop.
Variables (recur : path -> option yields) (dir : path) (ext : string) (t : tree).


End WalkLoop.





(** ** The functions manifest *)

Lemma obj_set_set {V : Type} (k : string) (v w : V) (m : list (string * V)) :
  obj_set k w (obj_set k v m) = obj_set k w m.
Proof.
  induction m as [|[k0 v0] m IH]; cbn [obj_set].
  - by destruct (decide (k = k)).
  - destruct (decide (k = k0)) as [->|Hne]; cbn [obj_set].
    + by destruct (decide (k0 = k0)).
    + destruct (decide (k = k0)); [done|]. by rewrite IH.
Qed.

(** Builds add up in the manifest: after the build of an entrypoint its
    page is found under its key and every other page is as it was, so
    the pages of earlier builds are kept; a second build under the same
    key replaces the page of the first, as if the first had not been;
    the version, once a build has set it, stays.  A manifest that could
    not be read counts as empty and gets version 1, as does one whose
    version is 0. *)
Theorem builds_add_up_in_the_manifest
    (read : option Manifest.FunctionsManifest)
    (key entrypoint : string) (config : Manifest.FunctionConfig) :
  let m := Manifest.update read key entrypoint config in
  Manifest.page key m
  = Some {| Manifest.handler := Some entrypoint;
            Manifest.runtime := Some "provided.al2";
            Manifest.memory := Manifest.config_memory config;
            Manifest.maxDuration := Manifest.config_maxDuration config;
            Manifest.regions := Manifest.config_regions config |} /\
  (forall k, k <> key ->
     Manifest.page k m
     = Manifest.page k (default (Manifest.mkManifest None None) read)) /\
  (exists v, Manifest.version m = Some v /\ v <> 0%Z /\
     (forall v0, read ≫= Manifest.version = Some v0 -> v0 <> 0%Z -> v = v0) /\
     (read = None -> v = 1%Z)) /\
  (forall key' entrypoint' config',
     let m' := Manifest.update (Some m) key' entrypoint' config' in
     Manifest.version m' = Manifest.version m /\
     (key' <> key -> Manifest.page key m' = Manifest.page key m) /\
     (key' = key -> m' = Manifest.update read key' entrypoint' config')).
Proof.
  cbn zeta. unfold Manifest.page, Manifest.update.
  cbn [Manifest.pages Manifest.version default from_option id].
  split_and!.
  - rewrite obj_get_set. by destruct (decide (key = key)).
  - intros k Hk. rewrite obj_get_set. by destruct (decide (k = key)).
  - destruct read as [[[v0|] ps]|]; cbn [default from_option id Manifest.version].
    + destruct (decide (v0 = 0%Z)) as [->|Hv0].
      * exists 1%Z. split_and!; [done | done | | done].
        intros v [= <-]. done.
      * exists v0. split_and!; [done | done | | done].
        by intros v [= <-].
    + exists 1%Z. split_and!; [done | done | | done]. by intros v [=].
    + exists 1%Z. split_and!; [done | done | | done]. by intros v [=].
  - intros key' entrypoint' config'. split_and!.
    + f_equal.
      destruct (Manifest.version (default _ read)) as [v|]; [|done].
      destruct (decide (v = 0%Z)); [done|]. by destruct (decide (v = 0%Z)).
    + intros Hne. rewrite !obj_get_set.
      destruct (decide (key = key')); [by subst|].
      done.
    + intros ->. rewrite obj_set_set. f_equal. f_equal.
      destruct (Manifest.version (default _ read)) as [v|]; [|done].
      destruct (decide (v = 0%Z)); [done|]. by destruct (decide (v = 0%Z)).
Qed.

(** ** What is written back *)

Section Writes.
Variables oldPath newPath : string.

Lemma visit_graphs_writes_eq (gs : list (string * Graph))
    (w : list (string * document)) (sf : option jsset) :
  (foldl (visit_graph oldPath newPath) (w, sf) gs).1
  = w ++ omap (fun f : string * Graph =>
                 if refers_to_old oldPath (strings_of (deps f.2))
                 then Some (f.1, GraphDoc (gr_graph
                                             (patch_graph oldPath newPath f.2 None)))
                 else None) gs.
Proof.
  revert w sf. induction gs as [|[file g] gs IH]; intros w sf.
  { cbn. by rewrite app_nil_r. }
  cbn [foldl]. rewrite visit_graph_eq, IH. cbn [omap list_omap fst snd].
  rewrite <- (assoc_L (++)). f_equal.
  destruct (refers_to_old oldPath (strings_of (deps g))); [|done].
  cbn [app]. by rewrite !patch_graph_eq.
Qed.

Lemma visit_buildInfos_writes_eq (bs : list (string * BuildInfo))
    (w : list (string * document)) (sf : option jsset) :
  (foldl (visit_buildInfo oldPath newPath) (w, sf) bs).1
  = w ++ omap (fun f : string * BuildInfo =>
                 if refers_to_old oldPath (strings_of_buildInfo f.2)
                 then Some (f.1, BuildInfoDoc
                                   (br_buildInfo
                                      (patch_buildInfo oldPath newPath f.2 None)))
                 else None) bs.
Proof.
  revert w sf. induction bs as [|[file b] bs IH]; intros w sf.
  { cbn. by rewrite app_nil_r. }
  cbn [foldl]. rewrite visit_buildInfo_eq, IH. cbn [omap list_omap fst snd].
  rewrite <- (assoc_L (++)). f_equal.
  destruct (refers_to_old oldPath (strings_of_buildInfo b)); [|done].
  cbn [app]. by rewrite (patch_buildInfo_doc_acc oldPath newPath b sf None).
Qed.

End Writes.

(** The files written back by a run are, in the order of the walk (the
    [.graph] files first, then the [.buildinfo] files), exactly those
    whose document refers to the old root at a place the pass looks at,
    each once and with its patched document. *)
Theorem writes_follow_the_walk
    (oldPath newPath : string) (graphs : list (string * Graph))
    (buildInfos : list (string * BuildInfo)) (sf : option jsset) :
  (patch_files oldPath newPath graphs buildInfos sf).1
  = omap (fun f : string * Graph =>
            if refers_to_old oldPath (strings_of (deps f.2))
            then Some (f.1, GraphDoc (gr_graph
                                        (patch_graph oldPath newPath f.2 None)))
            else None) graphs
    ++ omap (fun f : string * BuildInfo =>
               if refers_to_old oldPath (strings_of_buildInfo f.2)
               then Some (f.1, BuildInfoDoc
                                 (br_buildInfo
                                    (patch_buildInfo oldPath newPath f.2 None)))
               else None) buildInfos.
Proof.
  unfold patch_files.
  destruct (foldl (visit_graph oldPath newPath) ([], sf) graphs)
    as [w s] eqn:E.
  rewrite visit_buildInfos_writes_eq. f_equal.
  change w with (w, s).1. rewrite <- E.
  apply (visit_graphs_writes_eq oldPath newPath graphs [] sf).
Qed.

(** ** Moving the files *)

Import Move.

Lemma elem_of_prefixes (p q : path) : q ∈ prefixes p <-> q `prefix_of` p.
Proof.
  unfold prefixes. rewrite list_elem_of_fmap. split.
  - intros (k & -> & _). apply prefix_take.
  - intros [r ->]. exists (length q). split.
    + by rewrite take_app_length.
    + apply elem_of_seq. rewrite length_app. lia.
Qed.

Lemma lookup_foldr_insert_Dir (qs : list path) (t : tree) (p : path) :
  foldr (fun q t' => <[q := Dir]> t') t qs !! p
  = if decide (p ∈ qs) then Some Dir else t !! p.
Proof.
  induction qs as [|q qs IH]; cbn [foldr].
  - destruct (decide (p ∈ [])) as [H|_]; [by apply elem_of_nil in H | done].
  - destruct (decide (p = q)) as [->|Hne].
    + rewrite lookup_insert_eq.
      destruct (decide (q ∈ q :: qs)) as [_|H]; [done|]. destruct H. by left.
    + rewrite lookup_insert_ne by done. rewrite IH.
      destruct (decide (p ∈ qs)) as [H|H];
        destruct (decide (p ∈ q :: qs)) as [H'|H']; try done.
      * destruct H'. by right.
      * apply elem_of_cons in H' as [?|?]; done.
Qed.

Lemma mkdir_recursive_Some (p : path) (t t1 : tree) :
  mkdir_recursive p t = Some t1 ->
  (forall q, q `prefix_of` p -> t !! q <> Some File) /\
  forall q, t1 !! q = if decide (q `prefix_of` p) then Some Dir else t !! q.
Proof.
  unfold mkdir_recursive.
  destruct (decide (Exists _ _)) as [|Hno]; [done|].
  intros H. apply (inj Some) in H. subst t1. split.
  - intros q Hq Hf. apply Hno, Exists_exists. exists q.
    split; [by apply elem_of_prefixes | done].
  - intros q. rewrite lookup_foldr_insert_Dir.
    destruct (decide (q ∈ prefixes p)) as [H|H];
      destruct (decide (q `prefix_of` p)) as [H'|H']; try done.
    + by apply elem_of_prefixes in H.
    + by apply elem_of_prefixes in H'.
Qed.

Lemma rename_into_itself (src dst : path) (t : tree) :
  src `prefix_of` dst -> src <> dst -> rename src dst t = None.
Proof.
  intros Hp Hne. unfold rename. destruct (t !! src); [|done].
  destruct (decide (src = [] \/ dst = [])); [done|].
  destruct (decide (t !! dirname dst <> Some Dir)); [done|].
  destruct (decide (src = dst)); [done|].
  destruct (decide (src `prefix_of` dst \/ dst `prefix_of` src)) as [|H];
    [done|]. destruct H. by left.
Qed.

Lemma rename_each_None (old new : path) (files : list string) (t : tree)
    (x : string) :
  x ∈ files -> (forall t', rename (old ++ [x]) (new ++ [x]) t' = None) ->
  rename_each old new files t = None.
Proof.
  intros Hx Hr. revert t. induction files as [|f files IH]; intros t.
  { by apply elem_of_nil in Hx. }
  cbn [rename_each]. apply elem_of_cons in Hx as [<-|Hx].
  - by rewrite Hr.
  - destruct (rename _ _ t); [by apply IH | done].
Qed.

(** Moving a directory to a place inside itself always fails: when the
    new directory is below the old one, [moveCacheFiles] rejects, whatever
    the tree; the first component of the way from the old directory to
    the new one is an entry of the old directory, and it cannot be renamed
    to a path below itself. *)
Theorem moving_below_itself_fails (oldPathAbs newPathAbs : path) (t : tree) :
  oldPathAbs `prefix_of` newPathAbs -> oldPathAbs <> newPathAbs ->
  moveFiles oldPathAbs newPathAbs t = None.
Proof.
  intros [r ->] Hne. destruct r as [|x r]; [by rewrite app_nil_r in Hne|].
  unfold moveFiles.
  destruct (mkdir_recursive _ t) as [t1|] eqn:Emk; [|done].
  apply mkdir_recursive_Some in Emk as [_ Ht1].
  destruct (readdir oldPathAbs t1) as [files|] eqn:Erd; [|done].
  apply readdir_Ok in Erd as [_ ->].
  rewrite (rename_each_None _ _ _ _ x); [done | |].
  - apply elem_of_children. rewrite Ht1.
    destruct (decide (oldPathAbs ++ [x] `prefix_of` oldPathAbs ++ x :: r))
      as [|H]; [eauto|].
    destruct H. apply prefix_app. by exists r.
  - intros t'. apply rename_into_itself.
    + apply prefix_app_r. apply prefix_app. by exists r.
    + intros E. apply (f_equal length) in E.
      rewrite !length_app in E. cbn [length] in E. lia.
Qed.

Lemma moving_below_itself_fails_witness :
  let t : tree := list_to_map [([], Dir); (["gen"], Dir); (["gen"; "var"], Dir);
                               (["gen"; "var"; "mod.ts.js"], File)] in
  moveFiles ["gen"; "var"] ["gen"; "var"; "task"] t = None.
Proof.
  intros t. apply (moving_below_itself_fails ["gen"; "var"] ["gen"; "var"; "task"] t).
  - by exists ["task"].
  - discriminate.
Defined.

Lemma lookup_kmap_Some_on (f : path -> path) (m : tree) (j : path) (x : node) :
  (forall i i', is_Some (m !! i) -> is_Some (m !! i') -> f i = f i' -> i = i') ->
  (kmap f m : tree) !! j = Some x <-> exists i, j = f i /\ m !! i = Some x.
Proof.
  intros Hinj.
  assert (forall x',
    (j, x) ∈ prod_map f id <$> map_to_list m ->
    (j, x') ∈ prod_map f id <$> map_to_list m -> x = x') as Huniq.
  { intros x'. rewrite !list_elem_of_fmap.
    intros [[j1 y1] [E1 H1]] [[j2 y2] [E2 H2]].
    cbn in E1, E2. injection E1 as -> ->. injection E2 as E2 ->.
    apply elem_of_map_to_list in H1, H2.
    assert (j1 = j2) as -> by (apply Hinj; eauto).
    congruence. }
  unfold kmap. rewrite <- elem_of_list_to_map' by done.
  rewrite list_elem_of_fmap. split.
  - intros [[i y] [E Hi]]. cbn in E. injection E as -> ->.
    apply elem_of_map_to_list in Hi. by exists i.
  - intros (i & -> & Hi). exists (i, x). split; [done|].
    by apply elem_of_map_to_list.
Qed.

Section Moved.
Variables (src dst : path) (t : tree).
Hypothesis Hsd : ~ src `prefix_of` dst.
Hypothesis Hds : ~ dst `prefix_of` src.
Hypothesis Hfree : forall r, t !! (dst ++ r) = None.

Lemma apart_common (p : path) : src `prefix_of` p -> dst `prefix_of` p -> False.
Proof.
  intros H1 H2. destruct (prefix_weak_total _ _ _ H1 H2); done.
Qed.

Lemma reroot_under (r : path) : reroot src dst (src ++ r) = dst ++ r.
Proof.
  unfold reroot. destruct (decide (src `prefix_of` src ++ r)) as [_|H].
  - by rewrite drop_app_length.
  - destruct H. by exists r.
Qed.

Lemma reroot_other (p : path) : ~ src `prefix_of` p -> reroot src dst p = p.
Proof. intros H. unfold reroot. by destruct (decide (src `prefix_of` p)). Qed.

Lemma reroot_inj_on (i i' : path) :
  is_Some (t !! i) -> is_Some (t !! i') ->
  reroot src dst i = reroot src dst i' -> i = i'.
Proof.
  intros Hi Hi'.
  destruct (decide (src `prefix_of` i)) as [[r ->]|H];
    destruct (decide (src `prefix_of` i')) as [[r' ->]|H'];
    rewrite ?reroot_under, ?reroot_other by done.
  - intros E. by apply app_inv_head in E as ->.
  - intros <-. rewrite Hfree in Hi'. by destruct Hi'.
  - intros ->. rewrite Hfree in Hi. by destruct Hi.
  - done.
Qed.

Lemma moved_eq : moved src dst t = (kmap (reroot src dst) t : tree).
Proof.
  unfold moved. rewrite delete_id; [done|].
  by rewrite <- (app_nil_r dst), Hfree.
Qed.

Lemma lookup_moved_dst (r : path) : moved src dst t !! (dst ++ r) = t !! (src ++ r).
Proof.
  rewrite moved_eq. apply option_eq. intros x.
  rewrite lookup_kmap_Some_on by apply reroot_inj_on. split.
  - intros (i & E & Hi).
    destruct (decide (src `prefix_of` i)) as [[r' ->]|H].
    + rewrite reroot_under in E. by apply app_inv_head in E as ->.
    + rewrite reroot_other in E by done. subst i.
      by rewrite Hfree in Hi.
  - intros H. exists (src ++ r). by rewrite reroot_under.
Qed.

Lemma lookup_moved_src (r : path) : moved src dst t !! (src ++ r) = None.
Proof.
  rewrite moved_eq. apply eq_None_not_Some. intros [x Hx].
  apply lookup_kmap_Some_on in Hx as (i & E & Hi); [|apply reroot_inj_on].
  destruct (decide (src `prefix_of` i)) as [[r' ->]|H].
  - rewrite reroot_under in E.
    apply (apart_common (src ++ r)); [by exists r | rewrite E; by exists r'].
  - rewrite reroot_other in E by done. subst i. apply H. by exists r.
Qed.

Lemma lookup_moved_other (p : path) :
  ~ src `prefix_of` p -> ~ dst `prefix_of` p -> moved src dst t !! p = t !! p.
Proof.
  intros Hs Hd. rewrite moved_eq. apply option_eq. intros x.
  rewrite lookup_kmap_Some_on by apply reroot_inj_on. split.
  - intros (i & -> & Hi).
    destruct (decide (src `prefix_of` i)) as [[r' ->]|H].
    + rewrite reroot_under in Hd. destruct Hd. by exists r'.
    + by rewrite reroot_other.
  - intros H. exists p. by rewrite reroot_other.
Qed.

End Moved.

Lemma prefix_snoc_inv' (a b : path) (x : string) :
  a `prefix_of` b ++ [x] -> a `prefix_of` b \/ a = b ++ [x].
Proof.
  intros [r E]. destruct r as [|y r _] using rev_ind.
  - right. by rewrite app_nil_r in E.
  - left. rewrite (assoc_L (++)) in E. apply app_inj_tail in E as [-> _].
    by exists r.
Qed.

Lemma app_cons_snoc {A : Type} (l : list A) (x : A) (r : list A) :
  l ++ x :: r = (l ++ [x]) ++ r.
Proof. by rewrite <- (assoc_L (++)). Qed.

Lemma rename_moves (src dst : path) (t : tree) :
  src <> [] -> dst <> [] -> is_Some (t !! src) ->
  t !! dirname dst = Some Dir ->
  ~ src `prefix_of` dst -> ~ dst `prefix_of` src -> t !! dst = None ->
  rename src dst t = Some (moved src dst t).
Proof.
  intros Hs Hd [s Es] Hdir Hsd Hds Hdst. unfold rename. rewrite Es.
  destruct (decide (src = [] \/ dst = [])) as [[?|?]|_]; [done..|].
  destruct (decide (t !! dirname dst <> Some Dir)); [done|].
  destruct (decide (src = dst)) as [->|_]; [by destruct Hsd|].
  destruct (decide (src `prefix_of` dst \/ dst `prefix_of` src)) as [[?|?]|_];
    [done..|].
  by rewrite Hdst.
Qed.

Section RenameEach.
Variables old new : path.
Hypothesis Hon : ~ old `prefix_of` new.
Hypothesis Hno : ~ new `prefix_of` old.

Lemma old_entry_not_under_new (f : string) (p : path) :
  new `prefix_of` p -> ~ (old ++ [f]) `prefix_of` p.
Proof.
  intros Hn Ho. apply prefix_app_l in Ho.
  destruct (prefix_weak_total _ _ _ Ho Hn); done.
Qed.

Lemma new_entry_not_under_old (f : string) (p : path) :
  old `prefix_of` p -> ~ (new ++ [f]) `prefix_of` p.
Proof.
  intros Ho Hn. apply prefix_app_l in Hn.
  destruct (prefix_weak_total _ _ _ Ho Hn); done.
Qed.

Lemma other_entry (a : path) (f g : string) (r : path) :
  f <> g -> ~ (a ++ [f]) `prefix_of` (a ++ g :: r).
Proof.
  intros Hne H. apply prefix_app_inv in H.
  by apply prefix_cons_inv_1 in H.
Qed.

Lemma rename_each_spec (files : list string) :
  forall tc : tree,
    NoDup files -> tc !! new = Some Dir ->
    (forall f, f ∈ files -> is_Some (tc !! (old ++ [f]))) ->
    (forall f r, f ∈ files -> tc !! (new ++ f :: r) = None) ->
    exists t',
      rename_each old new files tc = Some t' /\
      (forall g r, g ∈ files -> t' !! (new ++ g :: r) = tc !! (old ++ g :: r)) /\
      (forall g r, g ∈ files -> t' !! (old ++ g :: r) = None) /\
      (forall p,
         (forall g, g ∈ files ->
            ~ (new ++ [g]) `prefix_of` p /\ ~ (old ++ [g]) `prefix_of` p) ->
         t' !! p = tc !! p).
Proof.
  induction files as [|f rest IH]; intros tc Hnd Hnew Hex Hfree.
  { exists tc. split_and!; [done | | | done];
      intros g r H; by apply elem_of_nil in H. }
  apply NoDup_cons in Hnd as [Hf Hnd].
  assert (forall g, g ∈ rest -> f <> g) as Hne by (intros g Hg ->; done).
  assert (~ (old ++ [f]) `prefix_of` (new ++ [f])) as Hsd.
  { apply old_entry_not_under_new. by exists [f]. }
  assert (~ (new ++ [f]) `prefix_of` (old ++ [f])) as Hds.
  { apply new_entry_not_under_old. by exists [f]. }
  assert (forall r, tc !! ((new ++ [f]) ++ r) = None) as Hfree'.
  { intros r. rewrite <- (assoc_L (++)). apply Hfree. by left. }
  cbn [rename_each]. rewrite rename_moves; first last.
  { rewrite <- (app_nil_r (new ++ [f])). apply Hfree'. }
  { done. } { done. }
  { by rewrite dirname_snoc. }
  { apply Hex. by left. }
  { by destruct new. } { by destruct old. }
  set (tc' := moved (old ++ [f]) (new ++ [f]) tc).
  assert (forall p, ~ (old ++ [f]) `prefix_of` p -> ~ (new ++ [f]) `prefix_of` p ->
                    tc' !! p = tc !! p) as Hother.
  { intros p. by apply lookup_moved_other. }
  destruct (IH tc') as (t' & -> & H1 & H2 & H3).
  - done.
  - rewrite Hother; [done | |].
    + apply old_entry_not_under_new. done.
    + apply prefix_snoc_not.
  - intros g Hg. rewrite Hother; [apply Hex; by right | |].
    + rewrite <- (app_nil_r (old ++ [g])), <- (assoc_L (++)).
      apply other_entry. by apply Hne.
    + apply new_entry_not_under_old. by exists [g].
  - intros g r Hg. rewrite Hother; [apply Hfree; by right | |].
    + apply old_entry_not_under_new. by exists (g :: r).
    + apply other_entry. by apply Hne.
  - exists t'. split_and!; [done | | |].
    + intros g r Hg. apply elem_of_cons in Hg as [->|Hg].
      * rewrite H3.
        -- subst tc'. rewrite (app_cons_snoc new f r), (app_cons_snoc old f r).
           by apply lookup_moved_dst.
        -- intros g Hg. split.
           ++ apply other_entry. intros ->. by apply (Hne f).
           ++ apply old_entry_not_under_new. by exists (f :: r).
      * rewrite H1 by done. apply Hother.
        -- apply other_entry. by apply Hne.
        -- apply new_entry_not_under_old. by exists (g :: r).
    + intros g r Hg. apply elem_of_cons in Hg as [->|Hg]; [|by apply H2].
      rewrite H3.
      * subst tc'. rewrite (app_cons_snoc old f r).
        by apply lookup_moved_src.
      * intros g Hg. split.
        -- apply new_entry_not_under_old. by exists (f :: r).
        -- apply other_entry. intros ->. by apply (Hne f).
    + intros p Hp. rewrite H3.
      * apply Hother; apply Hp; by left.
      * intros g Hg. apply Hp. by right.
Qed.

End RenameEach.

(** Pruning goes no further up than a directory that has an entry off
    the way to [dir]. *)
Lemma deleteEmptyDirs_keeps (q0 : path) (name : string) :
  forall (dir : path) (t : tree),
    (forall q, q `prefix_of` dir -> t !! q = Some Dir) ->
    q0 `prefix_of` dir -> is_Some (t !! (q0 ++ [name])) ->
    ~ (q0 ++ [name]) `prefix_of` dir ->
    exists t',
      deleteEmptyDirs dir t = Some (Ok t') /\
      (forall p, ~ p `prefix_of` dir \/ p `prefix_of` q0 -> t' !! p = t !! p) /\
      (children dir t = [] -> t' !! dir = None).
Proof.
  apply (deleteEmptyDirs_ind
           (fun dir t res =>
              (forall q, q `prefix_of` dir -> t !! q = Some Dir) ->
              q0 `prefix_of` dir -> is_Some (t !! (q0 ++ [name])) ->
              ~ (q0 ++ [name]) `prefix_of` dir ->
              exists t',
                res = Some (Ok t') /\
                (forall p, ~ p `prefix_of` dir \/ p `prefix_of` q0 ->
                           t' !! p = t !! p) /\
                (children dir t = [] -> t' !! dir = None))).
  - intros dir t e Hrd Hchain _ _ _. unfold readdir in Hrd.
    by rewrite (Hchain dir) in Hrd.
  - intros dir t files Hrd Hlen _ _ _ _. exists t. split_and!; [done | done |].
    apply readdir_Ok in Hrd as [_ ->]. intros E. by rewrite E in Hlen.
  - intros dir t e Hrd Hrm Hchain Hq0 Hex Hoff. exfalso.
    apply readdir_Ok in Hrd as [Hd Hch]. symmetry in Hch.
    unfold rmdir in Hrm. rewrite Hd in Hrm.
    destruct (decide (dir = [])) as [->|_].
    + apply prefix_nil_inv in Hq0 as ->.
      pose proof (proj1 (children_nil [] t) Hch name) as Hn.
      rewrite Hn in Hex. by destruct Hex.
    + by destruct (decide (children dir t = [])).
  - intros dir t t' Hrd Hrm IH Hchain Hq0 Hex Hoff.
    apply readdir_Ok in Hrd as [Hd Hch]. symmetry in Hch.
    apply rmdir_Ok in Hrm as (_ & Hne & _ & ->).
    destruct (path_snoc dir Hne) as [last Edir].
    assert (q0 <> dir) as Hq0d.
    { intros ->. pose proof (proj1 (children_nil dir t) Hch name) as Hn.
      rewrite Hn in Hex. by destruct Hex. }
    assert (q0 `prefix_of` dirname dir) as Hq0'.
    { rewrite Edir in Hq0. apply prefix_snoc_inv' in Hq0 as [?|E]; [done|].
      by rewrite <- Edir in E. }
    assert (forall p, p `prefix_of` dirname dir -> p <> dir) as Hup.
    { intros p Hp ->. apply prefix_length in Hp.
      pose proof (dirname_length dir Hne). lia. }
    destruct IH as (t3 & E & Hsame & Hgone).
    + intros q Hq.
      rewrite lookup_delete_ne by (intros E; by apply (Hup q Hq)).
      apply Hchain. rewrite Edir. by apply prefix_app_r.
    + done.
    + rewrite lookup_delete_ne; [done|]. intros E. apply Hoff. by rewrite <- E.
    + intros H. apply Hoff. rewrite Edir. by apply prefix_app_r.
    + exists t3. split_and!; [done | |].
      * intros p Hp.
        assert (p <> dir) as Hpd.
        { destruct Hp as [Hp|Hp]; [by intros -> |].
          intros ->. apply Hq0d. by apply (anti_symm prefix). }
        rewrite Hsame, lookup_delete_ne; [done | by intros E' | ].
        destruct Hp as [Hp|Hp]; [left | by right].
        intros H. apply Hp. rewrite Edir. by apply prefix_app_r.
      * intros _. rewrite Hsame, lookup_delete_eq; [done|].
        left. intros H. by apply (Hup dir H).
Qed.

Lemma branching_point (old new : path) :
  ~ new `prefix_of` old ->
  exists q0 name,
    q0 `prefix_of` old /\ (q0 ++ [name]) `prefix_of` new /\
    ~ (q0 ++ [name]) `prefix_of` old.
Proof.
  induction new as [|x new IH] using rev_ind; intros H.
  { destruct H. apply prefix_nil. }
  destruct (decide (new `prefix_of` old)) as [Hn|Hn].
  - by exists new, x.
  - destruct (IH Hn) as (q0 & name & H1 & H2 & H3).
    exists q0, name. split_and!; [done | by apply prefix_app_r | done].
Qed.

(** When neither directory is inside the other, the way to the old
    directory consists of directories, no file is in the way of the new
    one, and no entry of the old directory has its name taken under the
    new one, [moveCacheFiles] moves the files and returns: everything
    below an entry of the old directory is found, as it was, at the same
    place below the new directory and no longer below the old one; the
    old directory is removed; the new directory and its ancestors are
    directories; and every path that is neither an ancestor of one of
    the two directories nor inside an entry that was moved or its new
    place is as before. *)
Theorem files_are_moved_to_the_new_directory
    (oldPathAbs newPathAbs : path) (t : tree) :
  ~ oldPathAbs `prefix_of` newPathAbs ->
  ~ newPathAbs `prefix_of` oldPathAbs ->
  (forall q, q `prefix_of` oldPathAbs -> t !! q = Some Dir) ->
  (forall q, q `prefix_of` newPathAbs -> t !! q <> Some File) ->
  (forall f r, is_Some (t !! (oldPathAbs ++ [f])) ->
               t !! (newPathAbs ++ f :: r) = None) ->
  exists t',
    moveFiles oldPathAbs newPathAbs t = Some t' /\
    (forall f r, is_Some (t !! (oldPathAbs ++ [f])) ->
       t' !! (newPathAbs ++ f :: r) = t !! (oldPathAbs ++ f :: r) /\
       t' !! (oldPathAbs ++ f :: r) = None) /\
    t' !! oldPathAbs = None /\
    (forall q, q `prefix_of` newPathAbs -> t' !! q = Some Dir) /\
    (forall p,
       ~ p `prefix_of` oldPathAbs -> ~ p `prefix_of` newPathAbs ->
       (forall f, is_Some (t !! (oldPathAbs ++ [f])) ->
          ~ (oldPathAbs ++ [f]) `prefix_of` p /\
          ~ (newPathAbs ++ [f]) `prefix_of` p) ->
       t' !! p = t !! p).
Proof.
  set (old := oldPathAbs). set (new := newPathAbs).
  intros Hon Hno Hchain Hway Hfree. unfold moveFiles.
  destruct (mkdir_recursive new t) as [t1|] eqn:Emk.
  2:{ exfalso. unfold mkdir_recursive in Emk.
      destruct (decide (Exists _ _)) as [Hex|]; [|done].
      apply Exists_exists in Hex as (q & Hq & Hf).
      apply elem_of_prefixes in Hq. by apply (Hway q). }
  apply mkdir_recursive_Some in Emk as [_ Ht1].
  assert (forall p, ~ p `prefix_of` new -> t1 !! p = t !! p) as Ht1'.
  { intros p Hp. rewrite Ht1. by destruct (decide (p `prefix_of` new)). }
  assert (forall q, q `prefix_of` new -> t1 !! q = Some Dir) as Ht1new.
  { intros q Hq. rewrite Ht1. by destruct (decide (q `prefix_of` new)). }
  assert (forall f r, ~ (old ++ f :: r) `prefix_of` new) as Hold_new.
  { intros f r H. apply Hon. by eapply prefix_app_l. }
  assert (forall f r, ~ (new ++ f :: r) `prefix_of` old) as Hnew_old.
  { intros f r H. apply Hno. by eapply prefix_app_l. }
  assert (forall (a : path) f r, ~ (a ++ f :: r) `prefix_of` a) as Hlonger.
  { intros a f r H. apply prefix_length in H.
    rewrite length_app in H. cbn [length] in H. lia. }
  assert (t1 !! old = Some Dir) as Hold.
  { rewrite Ht1' by done. apply Hchain. done. }
  assert (readdir old t1 = Ok (children old t1)) as -> by by apply readdir_Ok.
  assert (forall f, f ∈ children old t1 <-> is_Some (t !! (old ++ [f]))) as Hfiles.
  { intros f. rewrite elem_of_children, Ht1'; [done | apply Hold_new]. }
  destruct (rename_each_spec old new Hon Hno (children old t1) t1)
    as (t2 & -> & H1 & H2 & H3).
  { apply children_NoDup. }
  { by apply Ht1new. }
  { intros f Hf. by apply elem_of_children. }
  { intros f r Hf. rewrite Ht1' by apply Hlonger.
    apply Hfree. by apply Hfiles. }
  assert (forall p,
            (forall f, is_Some (t !! (old ++ [f])) ->
                       ~ (old ++ [f]) `prefix_of` p /\ ~ (new ++ [f]) `prefix_of` p) ->
            t2 !! p = t1 !! p) as H3'.
  { intros p Hp. apply H3. intros g Hg. apply Hfiles in Hg.
    destruct (Hp g Hg). done. }
  assert (forall q, q `prefix_of` old -> t2 !! q = t1 !! q) as Hup_old.
  { intros q Hq. apply H3'. intros f _. split.
    - intros H. apply (Hlonger old f []). by etransitivity.
    - intros H. apply (Hnew_old f []). by etransitivity. }
  assert (forall q, q `prefix_of` new -> t2 !! q = Some Dir) as Hup_new.
  { intros q Hq. rewrite H3'; [by apply Ht1new|]. intros f _. split.
    - intros H. apply (Hold_new f []). by etransitivity.
    - intros H. apply (Hlonger new f []). by etransitivity. }
  destruct (branching_point old new Hno) as (q0 & name & Hq0 & Hq0n & Hq0o).
  destruct (deleteEmptyDirs_keeps q0 name old t2) as (t3 & -> & Hsame & Hgone).
  { intros q Hq. rewrite Hup_old by done.
    destruct (decide (q `prefix_of` new)); [by apply Ht1new|].
    rewrite Ht1' by done. by apply Hchain. }
  { done. }
  { rewrite Hup_new; [eauto | done]. }
  { done. }
  assert (children old t2 = []) as Hempty.
  { apply children_nil. intros name'.
    destruct (decide (name' ∈ children old t1)) as [Hin|Hout].
    - by apply (H2 name' []).
    - rewrite H3.
      + apply eq_None_not_Some. intros H. by apply Hout, elem_of_children.
      + intros g Hg. split.
        * apply (new_entry_not_under_old old new Hon Hno). by exists [name'].
        * rewrite <- (app_nil_r (old ++ [name'])), <- (assoc_L (++)).
          apply other_entry. by intros ->. }
  exists t3. split_and!.
  - done.
  - intros f r Hf. pose proof (proj2 (Hfiles f) Hf) as Hin. split.
    + rewrite Hsame by (left; apply Hnew_old).
      rewrite H1 by done. apply Ht1', Hold_new.
    + rewrite Hsame by (left; apply Hlonger). by apply H2.
  - by apply Hgone.
  - intros q Hq. rewrite Hsame, Hup_new; [done | done |].
    destruct (decide (q `prefix_of` old)) as [Hqo|]; [right | by left].
    destruct (prefix_weak_total _ _ _ Hq Hq0n) as [H|H].
    + apply prefix_snoc_inv' in H as [?| ->]; done.
    + destruct Hq0o. by etransitivity.
  - intros p Hpo Hpn Hp. rewrite Hsame by (by left).
    rewrite H3' by done. by apply Ht1'.
Qed.

Lemma files_are_moved_to_the_new_directory_witness :
  let t : tree :=
    list_to_map [([], Dir); (["gen"], Dir); (["gen"; "home"], Dir);
                 (["gen"; "home"; "u"], Dir); (["gen"; "home"; "u"; "api"], Dir);
                 (["gen"; "home"; "u"; "api"; "index.ts.js"], File);
                 (["gen"; "https"], Dir)] in
  exists t',
    moveFiles ["gen"; "home"; "u"] ["gen"; "var"; "task"] t = Some t' /\
    t' !! ["gen"; "var"; "task"; "api"; "index.ts.js"] = Some File /\
    t' !! ["gen"; "home"; "u"; "api"; "index.ts.js"] = None /\
    t' !! ["gen"; "home"; "u"] = None.
Proof.
  intros t.
  destruct (files_are_moved_to_the_new_directory
              ["gen"; "home"; "u"] ["gen"; "var"; "task"] t)
    as (t' & E & Hmoved & Hgone & _).
  - apply (bool_decide_unpack _). vm_compute. exact I.
  - apply (bool_decide_unpack _). vm_compute. exact I.
  - intros q Hq. apply elem_of_prefixes in Hq. unfold prefixes in Hq.
    cbn [length seq fmap list_fmap take] in Hq.
    repeat (apply elem_of_cons in Hq as [->|Hq]; [vm_compute; reflexivity|]).
    by apply elem_of_nil in Hq.
  - intros q Hq. apply elem_of_prefixes in Hq. unfold prefixes in Hq.
    cbn [length seq fmap list_fmap take] in Hq.
    repeat (apply elem_of_cons in Hq as [->|Hq];
            [intros H; vm_compute in H; discriminate H|]).
    by apply elem_of_nil in Hq.
  - intros f r _. apply eq_None_not_Some. intros [n Hn].
    apply elem_of_list_to_map_2 in Hn.
    repeat (apply elem_of_cons in Hn as [Hn|Hn]; [discriminate Hn|]).
    by apply elem_of_nil in Hn.
  - exists t'. split; [exact E|].
    assert (is_Some (t !! (["gen"; "home"; "u"] ++ ["api"]))) as Hapi
      by (vm_compute; eauto).
    destruct (Hmoved "api" ["index.ts.js"] Hapi) as [H1 H2].
    split_and!; [|exact H2 | exact Hgone].
    etransitivity; [exact H1|]. vm_compute. reflexivity.
Defined.
